(** * Variable-density spiral design (gadgets/spiral/vds.cpp)

    A shallow embedding of [calcthetadotdot], [calc_vds] and [calc_traj].

    The C++ [double] is kept abstract: the program text is embedded once,
    over an interface [DoubleOps] that lists the arithmetic the source
    uses.  Statements about control flow (loop counts, guards, buffer
    lengths) are proved for every implementation of the interface;
    statements about values are proved for the instance [R_double], where a
    [double] is a real number and every operation is exact.  In that
    instance a quotient is meaningful only over a non-zero divisor, so the
    theorems that look at a quotient assume its divisor is not zero.  A
    second instance, [float_double], runs the same text on binary64
    numbers.

    The C++ [int] is embedded as [Z].  Signed overflow is undefined in the
    source language; the counters of the loops are shown to stay between 0
    and their bound. *)

From Stdlib Require Import ZArith List Bool Lia QArith Reals Lra Psatz.
From Stdlib Require PrimFloat Uint63.
Import ListNotations.

Set Implicit Arguments.

(** ** The arithmetic used by the source *)

Class DoubleOps (D : Type) : Type := {
  dofZ : Z -> D;             (* conversion of an [int], and integral literals *)
  dofQ : Q -> D;             (* a decimal literal *)
  dadd : D -> D -> D;
  dsub : D -> D -> D;
  dmul : D -> D -> D;
  ddiv : D -> D -> D;
  dneg : D -> D;
  dsqrt : D -> D;
  dpow : D -> Z -> D;        (* [pow(x, n)] at an [int] exponent *)
  dcos : D -> D;
  dsin : D -> D;
  datan2 : D -> D -> D;      (* [atan2(y, x)] *)
  dlt : D -> D -> bool;      (* [x < y] *)
  deq : D -> D -> bool;      (* [x == y] *)
  dfloat : D -> D            (* storing into a [float] variable *)
}.

Declare Scope double_scope.
Delimit Scope double_scope with D.
Infix "+" := dadd : double_scope.
Infix "-" := dsub : double_scope.
Infix "*" := dmul : double_scope.
Infix "/" := ddiv : double_scope.
Notation "- x" := (dneg x) : double_scope.
Infix "<?" := dlt : double_scope.
Infix "==?" := deq (at level 70) : double_scope.
Notation "x >? y" := (dlt y x) : double_scope.

(** ** Generic loops *)

(** [for (i = lo; i < lo + n; i++) s = body i s]. *)
Fixpoint for_from {St : Type} (i : Z) (n : nat) (body : Z -> St -> St) (s : St) : St :=
  match n with
  | O => s
  | S n' => for_from (i + 1) n' body (body i s)
  end.

(** [for (i = 0; i < hi; i++) s = body i s]; no iteration when [hi <= 0]. *)
Definition for_loop {St : Type} (hi : Z) (body : Z -> St -> St) (s : St) : St :=
  for_from 0 (Z.to_nat hi) body s.

(** [while (cond s) s = body s], cut after [fuel] iterations. *)
Fixpoint while_loop {St : Type} (cond : St -> bool) (body : St -> St)
    (fuel : nat) (s : St) : option St :=
  if cond s then
    match fuel with
    | O => None
    | S fuel' => while_loop cond body fuel' (body s)
    end
  else Some s.

(** The states at which the loop test is evaluated, in order. *)
Fixpoint visited {St : Type} (cond : St -> bool) (body : St -> St)
    (fuel : nat) (s : St) : list St :=
  s :: (if cond s then
          match fuel with
          | O => []
          | S fuel' => visited cond body fuel' (body s)
          end
        else []).

Section Vds.

Context {D : Type} {ops : DoubleOps D}.
Local Open Scope double_scope.

(** [#define GAMMA 4258.0] and [#define PI 3.141592]. *)
Definition GAMMA : D := dofZ 4258.
Definition PI : D := dofQ (3141592 # 1000000).

(** [a[i]] for an array passed as pointer; the source never reads past the
    length its caller announces. *)
Definition aref (a : list D) (i : Z) : D := nth (Z.to_nat i) a (dofZ 0).

(** *** calcthetadotdot *)

(** Body of the loop over the FOV coefficients; the state is
    [(fovval, dfovdrval)]. *)
Definition fov_body (fov : list D) (kr : D) (count : Z) (acc : D * D) : D * D :=
  let '(fovval, dfovdrval) := acc in
  let fovval := fovval + aref fov count * dpow kr count in
  let dfovdrval :=
    if (0 <? count)%Z
    then dfovdrval + dofZ count * aref fov count * dpow kr (count - 1)
    else dfovdrval in
  (fovval, dfovdrval).

Definition fov_eval (fov : list D) (numfov : Z) (kr : D) : D * D :=
  for_loop numfov (fov_body fov kr) (dofZ 0, dofZ 0).

Definition gmaxfov_of (fovval Tdsample : D) : D :=
  dofZ 1 / GAMMA / fovval / Tdsample.

(** [gradmax] after [if (gradmax > gmaxfov) gradmax = gmaxfov]. *)
Definition gradmax_clamped (gradmax fovval Tdsample : D) : D :=
  let gmaxfov := gmaxfov_of fovval Tdsample in
  if gradmax >? gmaxfov then gmaxfov else gradmax.

Definition maxkrdot_of (gradmax fovval kr : D) (Ninterleaves : Z) : D :=
  dsqrt (dpow (GAMMA * gradmax) 2 /
         (dofZ 1 + dpow (dofZ 2 * PI * fovval * kr / dofZ Ninterleaves) 2)).

Definition tpf_of (fovval : D) (Ninterleaves : Z) : D :=
  dofZ 2 * PI * fovval / dofZ Ninterleaves.

Definition qdfA_of (tpfsq kr : D) : D :=
  dofZ 1 + tpfsq * kr * kr.

Definition qdfB_of (tpfsq fovval dfovdrval kr krdot : D) : D :=
  dofZ 2 * tpfsq * kr * krdot * krdot +
  dofZ 2 * tpfsq / fovval * dfovdrval * kr * kr * krdot * krdot.

Definition qdfC_of (slewmax tpf tpfsq fovval dfovdrval kr krdot : D) : D :=
  dpow (tpfsq * kr * krdot * krdot) 2 + dofZ 4 * tpfsq * dpow krdot 4 +
  dpow (tpf * dfovdrval / fovval * kr * krdot * krdot) 2 +
  dofZ 4 * tpfsq * dfovdrval / fovval * kr * dpow krdot 4 -
  dpow (GAMMA * slewmax) 2.

Definition rootparta_of (qdfA qdfB : D) : D :=
  - qdfB / (dofZ 2 * qdfA).

Definition rootpartb_of (qdfA qdfB qdfC : D) : D :=
  qdfB * qdfB / (dofZ 4 * qdfA * qdfA) - qdfC / qdfA.

(** The [else] branch of [if (krdot > maxkrdot)]: the value stored in
    [*krdotdot]. *)
Definition slew_krdotdot (slewmax tpf tpfsq fovval dfovdrval kr krdot : D) : D :=
  let qdfA := qdfA_of tpfsq kr in
  let qdfB := qdfB_of tpfsq fovval dfovdrval kr krdot in
  let qdfC := qdfC_of slewmax tpf tpfsq fovval dfovdrval kr krdot in
  let rootparta := rootparta_of qdfA qdfB in
  let rootpartb := rootpartb_of qdfA qdfB qdfC in
  if rootpartb <? dofZ 0 then rootparta else rootparta + dsqrt rootpartb.

(** The function returns the two values it stores through its pointers, as
    [(thetadotdot, krdotdot)]. *)
Definition calcthetadotdot (slewmax gradmax kr krdot Tgsample Tdsample : D)
    (Ninterleaves : Z) (fov : list D) (numfov : Z) : D * D :=
  let '(fovval, dfovdrval) := fov_eval fov numfov kr in
  let gradmax := gradmax_clamped gradmax fovval Tdsample in
  let maxkrdot := maxkrdot_of gradmax fovval kr Ninterleaves in
  let tpf := tpf_of fovval Ninterleaves in
  let tpfsq := dpow tpf 2 in
  let krdotdot :=
    if krdot >? maxkrdot
    then (maxkrdot - krdot) / Tgsample
    else slew_krdotdot slewmax tpf tpfsq fovval dfovdrval kr krdot in
  let thetadotdot := tpf * dfovdrval / fovval * krdot * krdot + tpf * krdotdot in
  (thetadotdot, krdotdot).

(** The locals of [calcthetadotdot] that its branches read, as functions
    of its arguments: [maxkrdot], the coefficients
    [(qdfA, qdfB, qdfC)], and [(rootparta, rootpartb)]. *)
Definition ctdd_maxkrdot (gradmax kr Tdsample : D) (Ninterleaves : Z)
    (fov : list D) (numfov : Z) : D :=
  let '(fovval, dfovdrval) := fov_eval fov numfov kr in
  maxkrdot_of (gradmax_clamped gradmax fovval Tdsample) fovval kr Ninterleaves.

Definition ctdd_qdf (slewmax kr krdot : D) (Ninterleaves : Z)
    (fov : list D) (numfov : Z) : D * D * D :=
  let '(fovval, dfovdrval) := fov_eval fov numfov kr in
  let tpf := tpf_of fovval Ninterleaves in
  let tpfsq := dpow tpf 2 in
  (qdfA_of tpfsq kr,
   qdfB_of tpfsq fovval dfovdrval kr krdot,
   qdfC_of slewmax tpf tpfsq fovval dfovdrval kr krdot).

Definition ctdd_rootparts (slewmax kr krdot : D) (Ninterleaves : Z)
    (fov : list D) (numfov : Z) : D * D :=
  let '(qdfA, qdfB, qdfC) := ctdd_qdf slewmax kr krdot Ninterleaves fov numfov in
  (rootparta_of qdfA qdfB, rootpartb_of qdfA qdfB qdfC).

(** *** calc_vds *)

(** The locals of [calc_vds].  [gxptr] and [gyptr] hold the samples stored
    so far through the two pointers, which walk the output buffers from
    their first cell. *)
Record vds_state : Type := mk_vds_state {
  gradcount : Z;
  kr : D;
  krdot : D;
  krdotdot : D;
  theta : D;
  thetadot : D;
  thetadotdot : D;
  lastkx : D;
  lastky : D;
  gxptr : list D;
  gyptr : list D
}.

(** What the caller receives through [numgrad], [xgrad] and [ygrad]. *)
Record vds_result : Type := mk_vds_result {
  numgrad : Z;
  xgrad : list D;
  ygrad : list D
}.

Section Calc_vds.

Variables (slewmax gradmax Tgsample Tdsample : D) (Ninterleaves : Z).
Variables (fov : list D) (numfov : Z) (krmax : D) (ngmax : Z).

(** The declarations at the head of the function. *)
Definition vds_init : vds_state :=
  mk_vds_state 0 (dofZ 0) (dofZ 0) (dofZ 0) (dofZ 0) (dofZ 0) (dofZ 0)
               (dofZ 0) (dofZ 0) [] [].

(** [(kr < krmax) && (gradcount < ngmax)], the test of both loops. *)
Definition vds_cond (s : vds_state) : bool :=
  (kr s <? krmax) && (gradcount s <? ngmax)%Z.

(** Body of the first loop. *)
Definition count_body (s : vds_state) : vds_state :=
  let '(thetadotdot', krdotdot') :=
    calcthetadotdot slewmax gradmax (kr s) (krdot s) Tgsample Tdsample
                    Ninterleaves fov numfov in
  let thetadot' := thetadot s + thetadotdot' * Tgsample in
  let theta' := theta s + thetadot' * Tgsample in
  let krdot' := krdot s + krdotdot' * Tgsample in
  let kr' := kr s + krdot' * Tgsample in
  mk_vds_state (gradcount s + 1) kr' krdot' krdotdot' theta' thetadot'
               thetadotdot' (lastkx s) (lastky s) (gxptr s) (gyptr s).

(** The assignments between the loops: [krdotdot], [thetadotdot],
    [lastkx] and [lastky] keep the value they have. *)
Definition vds_reset (s : vds_state) : vds_state :=
  mk_vds_state 0 (dofZ 0) (dofZ 0) (krdotdot s) (dofZ 0) (dofZ 0)
               (thetadotdot s) (lastkx s) (lastky s) [] [].

(** Body of the second loop. *)
Definition fill_body (s : vds_state) : vds_state :=
  let '(thetadotdot', krdotdot') :=
    calcthetadotdot slewmax gradmax (kr s) (krdot s) Tgsample Tdsample
                    Ninterleaves fov numfov in
  let thetadot' := thetadot s + thetadotdot' * Tgsample in
  let theta' := theta s + thetadot' * Tgsample in
  let krdot' := krdot s + krdotdot' * Tgsample in
  let kr' := kr s + krdot' * Tgsample in
  let kx := kr' * dcos theta' in
  let ky := kr' * dsin theta' in
  let gx := (dofZ 1 / GAMMA / Tgsample) * (kx - lastkx s) in
  let gy := (dofZ 1 / GAMMA / Tgsample) * (ky - lastky s) in
  mk_vds_state (gradcount s + 1) kr' krdot' krdotdot' theta' thetadot'
               thetadotdot' kx ky (gxptr s ++ [gx]) (gyptr s ++ [gy]).

(** State at the exit of the first loop. *)
Definition count_pass (fuel : nat) : option vds_state :=
  while_loop vds_cond count_body fuel vds_init.

(** State at the exit of the second loop, entered from [s1]. *)
Definition fill_pass (fuel : nat) (s1 : vds_state) : option vds_state :=
  while_loop vds_cond fill_body fuel (vds_reset s1).

Definition calc_vds (fuel : nat) : option vds_result :=
  match count_pass fuel with
  | None => None
  | Some s1 =>
      match fill_pass fuel s1 with
      | None => None
      | Some s2 => Some (mk_vds_result (gradcount s1) (gxptr s2) (gyptr s2))
      end
  end.

(** The values of [kr] at the successive evaluations of the loop test. *)
Definition kr_visited (fuel : nat) : list D :=
  map kr (visited vds_cond count_body fuel vds_init).

End Calc_vds.

(** What a state of the first loop and a state of the second have in
    common: the counter and the integration state; and the second has
    stored one sample per iteration. *)
Definition same_orbit (a b : vds_state) : Prop :=
  gradcount a = gradcount b /\ kr a = kr b /\ krdot a = krdot b /\
  theta a = theta b /\ thetadot a = thetadot b /\
  Z.of_nat (length (gxptr b)) = gradcount b /\
  Z.of_nat (length (gyptr b)) = gradcount b.

(** *** calc_traj *)

(** The two guarded angles of the weight computation. *)
Definition ang_g_of (xg yg : D) : D :=
  if xg ==? dofZ 0 then PI / dofZ 2 else datan2 yg xg.

Definition ang_t_of (x_tr y_tr : D) : D :=
  if x_tr ==? dofZ 0 then PI / dofZ 2 else datan2 y_tr x_tr.

(** The value stored through [wptr]. *)
Definition weight_of (xg yg x_tr y_tr : D) : D :=
  let abs_w := dsqrt (dpow xg 2 + dpow yg 2) in
  let ang_g := ang_g_of xg yg in
  let ang_t := ang_t_of x_tr y_tr in
  let tp_w := dsin (ang_g - ang_t) in
  let tp_w := dsqrt (dpow tp_w 2) in
  abs_w * tp_w.

(** The locals of [calc_traj] that live across iterations; [txptr],
    [typtr] and [wptr] hold what has been stored through each pointer. *)
Record traj_state : Type := mk_traj_state {
  x_tr : D;
  y_tr : D;
  txptr : list D;
  typtr : list D;
  wptr : list D
}.

(** What the caller receives through the three output pointers. *)
Record traj_result : Type := mk_traj_result {
  x_trajectory : list D;
  y_trajectory : list D;
  weights : list D
}.

Section Calc_traj.

Variables (xgrad ygrad : list D) (ngrad Nints : Z) (Tgsamp krmax : D).

(** [rotation = (inter * 2 * PI)/Nints].  The product [inter * 2] is an
    [int] product in the source, defined as long as it fits: for
    [inter < 2^30]. *)
Definition rotation_of (inter : Z) : D :=
  dofZ (inter * 2) * PI / dofZ Nints.

(** Body of the loop over [gradcount]. *)
Definition traj_body (rotation : D) (gradcount : Z) (s : traj_state) : traj_state :=
  let x_tr' :=
    if (0 <? gradcount)%Z
    then x_tr s + GAMMA * aref xgrad (gradcount - 1) * Tgsamp
    else x_tr s in
  let y_tr' :=
    if (0 <? gradcount)%Z
    then y_tr s + GAMMA * aref ygrad (gradcount - 1) * Tgsamp
    else y_tr s in
  let x_temp := dfloat (x_tr' * dcos rotation + y_tr' * dsin rotation) in
  let y_temp := dfloat (- (x_tr' * dsin rotation) + y_tr' * dcos rotation) in
  let tp_w := weight_of (aref xgrad gradcount) (aref ygrad gradcount) x_tr' y_tr' in
  mk_traj_state x_tr' y_tr'
                (txptr s ++ [x_temp / krmax])
                (typtr s ++ [y_temp / krmax])
                (wptr s ++ [tp_w]).

(** Body of the loop over [inter]. *)
Definition inter_body (inter : Z) (s : traj_state) : traj_state :=
  let rotation := rotation_of inter in
  let s0 := mk_traj_state (dofZ 0) (dofZ 0) (txptr s) (typtr s) (wptr s) in
  for_loop ngrad (traj_body rotation) s0.

Definition traj_init : traj_state :=
  mk_traj_state (dofZ 0) (dofZ 0) [] [] [].

(** The three buffers are allocated with room for
    [(ngrad*Nints)*sizeof(double)] entries before the loops; the embedding
    keeps what the loops store.  It covers the calls in which the
    allocations are made: [ngrad] and [Nints] not negative and their
    product an [int]. *)
Definition calc_traj : traj_result :=
  let s := for_loop Nints inter_body traj_init in
  mk_traj_result (txptr s) (typtr s) (wptr s).

(** Closed forms of what the loops store.  [traj_pos g j] is the value of
    the accumulator ([x_tr] for [g = xgrad], [y_tr] for [g = ygrad]) once
    iteration [j] has updated it, the additions done in the order of the
    source. *)
Fixpoint traj_pos (g : list D) (j : nat) : D :=
  match j with
  | O => dofZ 0
  | S j' => traj_pos g j' + GAMMA * aref g (Z.of_nat j') * Tgsamp
  end.

Definition tx_at (rotation : D) (j : nat) : D :=
  dfloat (traj_pos xgrad j * dcos rotation + traj_pos ygrad j * dsin rotation)
  / krmax.

Definition ty_at (rotation : D) (j : nat) : D :=
  dfloat (- (traj_pos xgrad j * dsin rotation) + traj_pos ygrad j * dcos rotation)
  / krmax.

Definition w_at (j : nat) : D :=
  weight_of (aref xgrad (Z.of_nat j)) (aref ygrad (Z.of_nat j))
            (traj_pos xgrad j) (traj_pos ygrad j).

(** Position, in the three output buffers, of sample [j] of interleave [i]. *)
Definition traj_index (i j : Z) : nat := Z.to_nat (i * ngrad + j).

End Calc_traj.

End Vds.

(** ** Exact real arithmetic as an implementation of the interface *)

Definition R_lt (x y : R) : bool := if Rlt_dec x y then true else false.
Definition R_eq (x y : R) : bool := if Req_dec_T x y then true else false.

(** [atan2] as the C library specifies it on finite arguments. *)
Definition R_atan2 (y x : R) : R :=
  if Rlt_dec 0 x then atan (y / x)
  else if Rlt_dec x 0 then
    (if Rle_dec 0 y then atan (y / x) + Rtrigo1.PI else atan (y / x) - Rtrigo1.PI)
  else if Rlt_dec 0 y then Rtrigo1.PI / 2
  else if Rlt_dec y 0 then - (Rtrigo1.PI / 2)
  else 0.

#[global] Instance R_double : DoubleOps R := {|
  dofZ := IZR;
  dofQ := Q2R;
  dadd := Rplus;
  dsub := Rminus;
  dmul := Rmult;
  ddiv := Rdiv;
  dneg := Ropp;
  dsqrt := sqrt;
  dpow := powerRZ;
  dcos := cos;
  dsin := sin;
  datan2 := R_atan2;
  dlt := R_lt;
  deq := R_eq;
  dfloat := fun x => x
|}.

(** ** Binary64 arithmetic as an implementation of the interface

    The operations of the source that IEEE 754 defines are the machine
    ones.  [pow] at an [int] exponent is a repeated product, which is the
    correctly rounded power for the exponents 0, 1 and 2; the
    trigonometric functions and the narrowing to [float] are left as
    parameters. *)

Definition float_ofZ (z : Z) : PrimFloat.float :=
  match z with
  | Zneg p => PrimFloat.opp (PrimFloat.of_uint63 (Uint63.of_Z (Zpos p)))
  | _ => PrimFloat.of_uint63 (Uint63.of_Z z)
  end.

Fixpoint float_pow (x : PrimFloat.float) (n : nat) : PrimFloat.float :=
  match n with
  | O => float_ofZ 1
  | S n' => PrimFloat.mul x (float_pow x n')
  end.

Section FloatInstance.

Variables (fcos fsin : PrimFloat.float -> PrimFloat.float).
Variable (fatan2 : PrimFloat.float -> PrimFloat.float -> PrimFloat.float).
Variable (ffloat : PrimFloat.float -> PrimFloat.float).

Definition float_double : DoubleOps PrimFloat.float := {|
  dofZ := float_ofZ;
  dofQ := fun q =>
    PrimFloat.div (float_ofZ (Qnum q)) (float_ofZ (Zpos (Qden q)));
  dadd := PrimFloat.add;
  dsub := PrimFloat.sub;
  dmul := PrimFloat.mul;
  ddiv := PrimFloat.div;
  dneg := PrimFloat.opp;
  dsqrt := PrimFloat.sqrt;
  dpow := fun x n => float_pow x (Z.to_nat n);
  dcos := fcos;
  dsin := fsin;
  datan2 := fatan2;
  dlt := PrimFloat.ltb;
  deq := PrimFloat.eqb;
  dfloat := ffloat
|}.

End FloatInstance.

(** The quadratic [qdfA*x^2 + qdfB*x + qdfC] of the slew-rate constraint. *)
Definition quadratic (c : R * R * R) (x : R) : R :=
  let '(qdfA, qdfB, qdfC) := c in (qdfA * x * x + qdfB * x + qdfC)%R.

(** The trajectory point of sample [j] of interleave [i]. *)
Definition traj_point (r : traj_result (D:=R)) (ngrad i j : Z) : R * R :=
  (nth (traj_index ngrad i j) (x_trajectory r) 0%R,
   nth (traj_index ngrad i j) (y_trajectory r) 0%R).

(** Rotation of the plane about the origin by the angle [a],
    counter-clockwise for [a > 0]. *)
Definition rotate (a : R) (p : R * R) : R * R :=
  (fst p * cos a - snd p * sin a, fst p * sin a + snd p * cos a)%R.

Ltac rops :=
  cbn [dofZ dofQ dadd dsub dmul ddiv dneg dsqrt dpow dcos dsin datan2
       dlt deq dfloat R_double] in *.

(** * Properties *)

(** ** Loops *)

Section LoopFacts.

Context {St : Type}.
Variables (cond : St -> bool) (body : St -> St).

Lemma while_loop_exit fuel s r :
  while_loop cond body fuel s = Some r -> cond r = false.
Proof.
  revert s; induction fuel as [|fuel IH]; intros s; simpl;
    destruct (cond s) eqn:E; try discriminate.
  - intros [= <-]; exact E.
  - apply IH.
  - intros [= <-]; exact E.
Qed.

Lemma while_loop_more_fuel fuel fuel' s r :
  (fuel <= fuel')%nat ->
  while_loop cond body fuel s = Some r ->
  while_loop cond body fuel' s = Some r.
Proof.
  revert fuel' s; induction fuel as [|fuel IH]; intros fuel' s Hle; simpl.
  - destruct fuel'; simpl; destruct (cond s); congruence.
  - destruct fuel' as [|fuel']; [lia|]; simpl.
    destruct (cond s); [apply IH; lia | trivial].
Qed.

(** A loop whose test bounds a counter that each iteration increments
    leaves after at most [bound - cnt s] iterations. *)
Lemma while_loop_counter (cnt : St -> Z) (bound : Z) :
  (forall s, cond s = true -> (cnt s < bound)%Z) ->
  (forall s, cnt (body s) = (cnt s + 1)%Z) ->
  forall fuel s, (Z.to_nat (bound - cnt s) <= fuel)%nat ->
  exists r, while_loop cond body fuel s = Some r /\
            (cnt s <= cnt r)%Z /\ (cnt r <= Z.max (cnt s) bound)%Z /\
            (cond s = true -> (cnt s + 1 <= cnt r)%Z).
Proof.
  intros Hc Hb; induction fuel as [|fuel IH]; intros s Hf; simpl;
    destruct (cond s) eqn:E.
  - apply Hc in E; lia.
  - exists s; repeat split; (lia || discriminate).
  - pose proof (Hc _ E) as Hlt.
    destruct (IH (body s)) as (r & Hr & H1 & H2 & _); [rewrite Hb; lia|].
    rewrite Hb in H1, H2. exists r; repeat split; [exact Hr|lia|lia|lia].
  - exists s; repeat split; (lia || discriminate).
Qed.

Lemma while_loop_invariant (P : St -> Prop) :
  (forall s, P s -> P (body s)) ->
  forall fuel s r, P s -> while_loop cond body fuel s = Some r -> P r.
Proof.
  intros Hb; induction fuel as [|fuel IH]; intros s r Hs; simpl;
    destruct (cond s); try discriminate.
  - intros [= <-]; exact Hs.
  - apply IH. apply Hb. exact Hs.
  - intros [= <-]; exact Hs.
Qed.

(** The loop leaves in the last state at which its test was evaluated. *)
Lemma while_loop_last_visited fuel s r d :
  while_loop cond body fuel s = Some r ->
  last (visited cond body fuel s) d = r.
Proof.
  revert s; induction fuel as [|fuel IH]; intros s; simpl;
    destruct (cond s) eqn:E; try discriminate.
  - intros [= <-]; reflexivity.
  - intros H. specialize (IH _ H).
    destruct (visited cond body fuel (body s)) eqn:V; [|exact IH].
    destruct fuel; simpl in V; discriminate.
  - intros [= <-]; reflexivity.
Qed.

Lemma while_loop_false fuel s :
  cond s = false -> while_loop cond body fuel s = Some s.
Proof. intros E; destruct fuel; simpl; rewrite E; reflexivity. Qed.

Lemma while_loop_true fuel s :
  cond s = true ->
  while_loop cond body (S fuel) s = while_loop cond body fuel (body s).
Proof. intros E; simpl; rewrite E; reflexivity. Qed.

End LoopFacts.

(** Two loops whose tests and bodies respect a relation between their
    states leave together, in related states. *)
Lemma while_loop_sim {A B : Type} (Rel : A -> B -> Prop)
    (condA : A -> bool) (bodyA : A -> A) (condB : B -> bool) (bodyB : B -> B) :
  (forall a b, Rel a b -> condA a = condB b) ->
  (forall a b, Rel a b -> Rel (bodyA a) (bodyB b)) ->
  forall fuel a b a', Rel a b ->
    while_loop condA bodyA fuel a = Some a' ->
    exists b', while_loop condB bodyB fuel b = Some b' /\ Rel a' b'.
Proof.
  intros Hc Hb; induction fuel as [|fuel IH]; intros a b a' HR; simpl;
    rewrite <- (Hc _ _ HR); destruct (condA a); try discriminate.
  - intros [= <-]; eauto.
  - intros H; eapply IH; eauto.
  - intros [= <-]; eauto.
Qed.

(** ** The two passes of [calc_vds] *)

Section VdsFacts.

Context {D : Type} {ops : DoubleOps D}.
Variables (slewmax gradmax Tgsample Tdsample : D) (Ninterleaves : Z).
Variables (fov : list D) (numfov : Z) (krmax : D) (ngmax : Z).

Local Abbreviation cond := (vds_cond krmax ngmax).
Local Abbreviation count_body' :=
  (count_body slewmax gradmax Tgsample Tdsample Ninterleaves fov numfov).
Local Abbreviation fill_body' :=
  (fill_body slewmax gradmax Tgsample Tdsample Ninterleaves fov numfov).

Lemma vds_cond_bound s : cond s = true -> (gradcount s < ngmax)%Z.
Proof.
  unfold vds_cond; intros H; apply andb_prop in H as [_ H].
  now apply Z.ltb_lt.
Qed.

Lemma count_body_gradcount s :
  gradcount (count_body' s) = (gradcount s + 1)%Z.
Proof.
  unfold count_body; destruct calcthetadotdot; reflexivity.
Qed.

Lemma fill_body_gradcount s :
  gradcount (fill_body' s) = (gradcount s + 1)%Z.
Proof.
  unfold fill_body; destruct calcthetadotdot; reflexivity.
Qed.

Lemma same_orbit_cond a b : same_orbit a b -> cond a = cond b.
Proof.
  intros (Hg & Hk & _); unfold vds_cond; now rewrite Hg, Hk.
Qed.

Lemma same_orbit_step a b :
  same_orbit a b -> same_orbit (count_body' a) (fill_body' b).
Proof.
  intros (Hg & Hk & Hkd & Ht & Htd & Hx & Hy).
  unfold same_orbit, count_body, fill_body.
  rewrite Hk, Hkd, Ht, Htd, Hg.
  destruct calcthetadotdot as [tdd krdd]; simpl.
  rewrite !length_app; simpl.
  repeat split; lia.
Qed.

Lemma same_orbit_reset s : same_orbit (vds_init (D:=D)) (vds_reset s).
Proof. repeat split. Qed.

Lemma count_pass_total fuel :
  (Z.to_nat ngmax <= fuel)%nat ->
  exists s1, count_pass slewmax gradmax Tgsample Tdsample Ninterleaves
                        fov numfov krmax ngmax fuel = Some s1 /\
             (0 <= gradcount s1 <= Z.max 0 ngmax)%Z /\
             (cond vds_init = true -> (1 <= gradcount s1)%Z) /\
             (cond vds_init = false -> s1 = vds_init).
Proof.
  intros Hf.
  destruct (@while_loop_counter _ cond count_body' gradcount ngmax
              vds_cond_bound count_body_gradcount fuel vds_init)
    as (r & Hr & H1 & H2 & H3).
  - simpl. rewrite Z.sub_0_r. exact Hf.
  - exists r; repeat split; trivial.
    intros E. unfold count_pass in Hr.
    rewrite (while_loop_false _ _ _ _ E) in Hr. congruence.
Qed.

Lemma fill_pass_agrees fuel s1 :
  count_pass slewmax gradmax Tgsample Tdsample Ninterleaves
             fov numfov krmax ngmax fuel = Some s1 ->
  exists s2, fill_pass slewmax gradmax Tgsample Tdsample Ninterleaves
                       fov numfov krmax ngmax fuel s1 = Some s2 /\
             same_orbit s1 s2.
Proof.
  intros H.
  exact (@while_loop_sim _ _ same_orbit cond count_body' cond fill_body'
           same_orbit_cond same_orbit_step fuel _ _ _ (same_orbit_reset s1) H).
Qed.

Local Abbreviation ctdd kr krdot :=
  (calcthetadotdot slewmax gradmax kr krdot Tgsample Tdsample
                   Ninterleaves fov numfov).

Local Open Scope double_scope.

(** One iteration of the first loop, field by field. *)
Lemma count_body_fields s :
  let s' := count_body' s in
  gradcount s' = (gradcount s + 1)%Z /\
  krdot s' = krdot s + snd (ctdd (kr s) (krdot s)) * Tgsample /\
  kr s' = kr s + krdot s' * Tgsample /\
  lastkx s' = lastkx s /\ lastky s' = lastky s.
Proof.
  unfold count_body. destruct calcthetadotdot as [tdd krdd]. simpl.
  repeat split.
Qed.

(** The sample stored by one iteration of the second loop. *)
Lemma fill_body_sample s :
  let s' := fill_body' s in
  let thetadot' := thetadot s + fst (ctdd (kr s) (krdot s)) * Tgsample in
  let theta' := theta s + thetadot' * Tgsample in
  let krdot' := krdot s + snd (ctdd (kr s) (krdot s)) * Tgsample in
  let kr' := kr s + krdot' * Tgsample in
  gxptr s' = gxptr s ++
    [(dofZ 1 / GAMMA / Tgsample) * (kr' * dcos theta' - lastkx s)] /\
  gyptr s' = gyptr s ++
    [(dofZ 1 / GAMMA / Tgsample) * (kr' * dsin theta' - lastky s)].
Proof.
  unfold fill_body. destruct calcthetadotdot as [tdd krdd]. simpl.
  repeat split.
Qed.

(** The second loop only appends to what has been stored. *)
Lemma fill_loop_extends fuel : forall s r,
  while_loop cond fill_body' fuel s = Some r ->
  exists lx ly, gxptr r = gxptr s ++ lx /\ gyptr r = gyptr s ++ ly.
Proof.
  induction fuel as [|fuel IH]; intros s r; simpl; destruct (cond s);
    try discriminate.
  - intros [= <-]. exists [], []. now rewrite !app_nil_r.
  - intros H. apply IH in H as (lx & ly & Hx & Hy).
    destruct (fill_body_sample s) as (Ex & Ey).
    rewrite Ex in Hx. rewrite Ey in Hy. rewrite <- app_assoc in Hx, Hy.
    eauto.
  - intros [= <-]. exists [], []. now rewrite !app_nil_r.
Qed.

(** The first loop leaves [lastkx] and [lastky] at their initial 0. *)
Lemma count_pass_keeps_last fuel s1 :
  count_pass slewmax gradmax Tgsample Tdsample Ninterleaves
             fov numfov krmax ngmax fuel = Some s1 ->
  lastkx s1 = dofZ 0 /\ lastky s1 = dofZ 0.
Proof.
  apply (@while_loop_invariant _ cond count_body'
           (fun s => lastkx s = dofZ 0 /\ lastky s = dofZ 0)).
  - intros s [Hx Hy]. destruct (count_body_fields s) as (_ & _ & _ & Ex & Ey).
    rewrite Ex, Ey. now split.
  - now split.
Qed.

(** The first sample stored by the second loop, when the loop is entered. *)
Lemma fill_pass_first_sample fuel s1 s2 d :
  count_pass slewmax gradmax Tgsample Tdsample Ninterleaves
             fov numfov krmax ngmax fuel = Some s1 ->
  fill_pass slewmax gradmax Tgsample Tdsample Ninterleaves
            fov numfov krmax ngmax fuel s1 = Some s2 ->
  cond vds_init = true ->
  let thetadot' := dofZ 0 + fst (ctdd (dofZ 0) (dofZ 0)) * Tgsample in
  let theta' := dofZ 0 + thetadot' * Tgsample in
  let krdot' := dofZ 0 + snd (ctdd (dofZ 0) (dofZ 0)) * Tgsample in
  let kr' := dofZ 0 + krdot' * Tgsample in
  nth 0 (gxptr s2) d
    = (dofZ 1 / GAMMA / Tgsample) * (kr' * dcos theta' - dofZ 0) /\
  nth 0 (gyptr s2) d
    = (dofZ 1 / GAMMA / Tgsample) * (kr' * dsin theta' - dofZ 0).
Proof.
  intros H1 H2 Hc.
  destruct (count_pass_keeps_last _ H1) as [Lx Ly].
  unfold fill_pass in H2.
  assert (Hc' : cond (vds_reset s1) = true) by exact Hc.
  destruct fuel as [|fuel]; [simpl in H2; rewrite Hc' in H2; discriminate|].
  rewrite (while_loop_true _ _ _ _ Hc') in H2.
  apply fill_loop_extends in H2 as (lx & ly & Hx & Hy).
  destruct (fill_body_sample (vds_reset s1)) as (Ex & Ey).
  rewrite Ex in Hx. rewrite Ey in Hy. rewrite Hx, Hy.
  simpl. rewrite Lx, Ly. split; reflexivity.
Qed.

Local Close Scope double_scope.

(** Both passes return once the fuel covers [ngmax] iterations, and the
    result handed to the caller is assembled from their exit states. *)
Lemma calc_vds_total fuel :
  (Z.to_nat ngmax <= fuel)%nat ->
  exists s1 s2,
    count_pass slewmax gradmax Tgsample Tdsample Ninterleaves
               fov numfov krmax ngmax fuel = Some s1 /\
    fill_pass slewmax gradmax Tgsample Tdsample Ninterleaves
              fov numfov krmax ngmax fuel s1 = Some s2 /\
    calc_vds slewmax gradmax Tgsample Tdsample Ninterleaves
             fov numfov krmax ngmax fuel
      = Some (mk_vds_result (gradcount s1) (gxptr s2) (gyptr s2)) /\
    same_orbit s1 s2 /\
    (0 <= gradcount s1 <= Z.max 0 ngmax)%Z /\
    (cond vds_init = true -> (1 <= gradcount s1)%Z) /\
    (cond vds_init = false -> gradcount s1 = 0%Z).
Proof.
  intros Hf.
  destruct (count_pass_total Hf) as (s1 & H1 & Hb & Hpos & Hzero).
  destruct (fill_pass_agrees _ H1) as (s2 & H2 & Ho).
  exists s1, s2. unfold calc_vds. rewrite H1, H2.
  split; [reflexivity|]. split; [reflexivity|]. split; [reflexivity|].
  split; [exact Ho|]. split; [exact Hb|]. split; [exact Hpos|].
  intros E. now rewrite (Hzero E).
Qed.

(** The result does not depend on the fuel, once there is enough of it. *)
Lemma calc_vds_more_fuel fuel fuel' r :
  (fuel <= fuel')%nat ->
  calc_vds slewmax gradmax Tgsample Tdsample Ninterleaves
           fov numfov krmax ngmax fuel = Some r ->
  calc_vds slewmax gradmax Tgsample Tdsample Ninterleaves
           fov numfov krmax ngmax fuel' = Some r.
Proof.
  intros Hle. unfold calc_vds, count_pass, fill_pass.
  destruct (while_loop cond count_body' fuel vds_init) as [s1|] eqn:H1;
    [|discriminate].
  destruct (while_loop cond fill_body' fuel (vds_reset s1)) as [s2|] eqn:H2;
    [|discriminate].
  rewrite (while_loop_more_fuel _ _ _ Hle H1).
  rewrite (while_loop_more_fuel _ _ _ Hle H2). trivial.
Qed.

(** With no room for a sample the function returns empty buffers, whatever
    the fuel. *)
Lemma calc_vds_no_room fuel :
  (ngmax <= 0)%Z ->
  calc_vds slewmax gradmax Tgsample Tdsample Ninterleaves
           fov numfov krmax ngmax fuel = Some (mk_vds_result 0 [] []).
Proof.
  intros Hn.
  assert (E : forall s, gradcount s = 0%Z -> cond s = false).
  { intros s Hs. unfold vds_cond. rewrite Hs.
    replace (0 <? ngmax)%Z with false by (symmetry; apply Z.ltb_ge; lia).
    apply andb_false_r. }
  unfold calc_vds, count_pass, fill_pass.
  rewrite (while_loop_false _ _ _ _ (E vds_init eq_refl)).
  rewrite (while_loop_false _ _ _ _ (E (vds_reset vds_init) eq_refl)).
  reflexivity.
Qed.

(** No sample is returned exactly when the first evaluation of the loop
    test fails, that is when [0 < krmax] is false or [ngmax <= 0]. *)
Lemma calc_vds_zero_iff_test fuel :
  (Z.to_nat ngmax <= fuel)%nat ->
  exists r,
    calc_vds slewmax gradmax Tgsample Tdsample Ninterleaves
             fov numfov krmax ngmax fuel = Some r /\
    (numgrad r = 0%Z <-> dlt (dofZ 0) krmax = false \/ (ngmax <= 0)%Z) /\
    (dlt (dofZ 0) krmax = true -> (0 < ngmax)%Z ->
       (1 <= numgrad r)%Z /\ xgrad r <> [] /\ ygrad r <> []).
Proof.
  intros Hf.
  destruct (calc_vds_total Hf)
    as (s1 & s2 & _ & _ & Hr & Ho & Hb & Hpos & Hzero).
  destruct Ho as (Hg & _ & _ & _ & _ & Hx & Hy).
  exists (mk_vds_result (gradcount s1) (gxptr s2) (gyptr s2)).
  split; [exact Hr|]. simpl.
  assert (Hc : cond vds_init = dlt (dofZ 0) krmax && (0 <? ngmax)%Z)
    by reflexivity.
  destruct (dlt (dofZ 0) krmax) eqn:Ek; destruct (0 <? ngmax)%Z eqn:En;
    simpl in Hc;
    try (apply Z.ltb_lt in En); try (apply Z.ltb_ge in En).
  - specialize (Hpos Hc). split.
    + split; [lia|]. intros [H|H]; [discriminate|lia].
    + intros _ _. split; [exact Hpos|].
      split; intros E'; rewrite E' in *; simpl in *; lia.
  - specialize (Hzero Hc). split; [|lia].
    split; [intros _; now right|intros _; exact Hzero].
  - specialize (Hzero Hc). split; [|discriminate].
    split; [intros _; now left|intros _; exact Hzero].
  - specialize (Hzero Hc). split; [|discriminate].
    split; [intros _; now left|intros _; exact Hzero].
Qed.

(** C2: for every input, and whatever the arithmetic of [double] is, the
    first loop of [calc_vds] and the second one leave after the same number
    of iterations: both return, the counter at the exit of the second
    equals the count [numgrad] found by the first, and exactly that many
    samples have been stored through each of the two buffer pointers. *)
Theorem calc_vds_passes_agree fuel :
  (Z.to_nat ngmax <= fuel)%nat ->
  exists s1 s2 r,
    count_pass slewmax gradmax Tgsample Tdsample Ninterleaves
               fov numfov krmax ngmax fuel = Some s1 /\
    fill_pass slewmax gradmax Tgsample Tdsample Ninterleaves
              fov numfov krmax ngmax fuel s1 = Some s2 /\
    calc_vds slewmax gradmax Tgsample Tdsample Ninterleaves
             fov numfov krmax ngmax fuel = Some r /\
    gradcount s2 = gradcount s1 /\
    numgrad r = gradcount s1 /\
    xgrad r = gxptr s2 /\ ygrad r = gyptr s2 /\
    Z.of_nat (length (xgrad r)) = numgrad r /\
    Z.of_nat (length (ygrad r)) = numgrad r.
Proof.
  intros Hf.
  destruct (calc_vds_total Hf)
    as (s1 & s2 & H1 & H2 & Hr & (Hg & _ & _ & _ & _ & Hx & Hy) & _).
  exists s1, s2, (mk_vds_result (gradcount s1) (gxptr s2) (gyptr s2)).
  simpl. repeat split; trivial; congruence.
Qed.

(** C3 (as amended): for every input, and whatever the arithmetic of
    [double] is, [calc_vds] returns, and the count it returns lies between
    0 and [max 0 ngmax]; it is at most [ngmax] whenever [ngmax] is not
    negative. *)
Theorem calc_vds_numgrad_bound fuel :
  (Z.to_nat ngmax <= fuel)%nat ->
  exists r,
    calc_vds slewmax gradmax Tgsample Tdsample Ninterleaves
             fov numfov krmax ngmax fuel = Some r /\
    (0 <= numgrad r <= Z.max 0 ngmax)%Z /\
    ((0 <= ngmax)%Z -> (numgrad r <= ngmax)%Z).
Proof.
  intros Hf.
  destruct (calc_vds_total Hf) as (s1 & s2 & _ & _ & Hr & _ & Hb & _).
  exists (mk_vds_result (gradcount s1) (gxptr s2) (gyptr s2)).
  simpl. repeat split; trivial; lia.
Qed.

End VdsFacts.

(** ** The step-derivative solver *)

Section SolverFacts.

Context {D : Type} {ops : DoubleOps D}.
Local Open Scope double_scope.

(** When the test [krdot > maxkrdot] fails, [*krdotdot] is assigned in the
    [else] branch, from [rootparta] and [rootpartb]. *)
Lemma calcthetadotdot_slew (slewmax gradmax kr krdot Tgsample Tdsample : D)
    (Ninterleaves : Z) (fov : list D) (numfov : Z) :
  (krdot >? ctdd_maxkrdot gradmax kr Tdsample Ninterleaves fov numfov) = false ->
  snd (calcthetadotdot slewmax gradmax kr krdot Tgsample Tdsample
                       Ninterleaves fov numfov)
  = let '(rootparta, rootpartb) :=
      ctdd_rootparts slewmax kr krdot Ninterleaves fov numfov in
    if rootpartb <? dofZ 0 then rootparta else rootparta + dsqrt rootpartb.
Proof.
  unfold calcthetadotdot, ctdd_maxkrdot, ctdd_rootparts, ctdd_qdf.
  destruct (fov_eval fov numfov kr) as [fovval dfovdrval].
  intros E. cbn [snd]. rewrite E. reflexivity.
Qed.

(** When it succeeds, [*krdotdot] is the first-order correction. *)
Lemma calcthetadotdot_amplitude (slewmax gradmax kr krdot Tgsample Tdsample : D)
    (Ninterleaves : Z) (fov : list D) (numfov : Z) :
  (krdot >? ctdd_maxkrdot gradmax kr Tdsample Ninterleaves fov numfov) = true ->
  snd (calcthetadotdot slewmax gradmax kr krdot Tgsample Tdsample
                       Ninterleaves fov numfov)
  = (ctdd_maxkrdot gradmax kr Tdsample Ninterleaves fov numfov - krdot) / Tgsample.
Proof.
  unfold calcthetadotdot, ctdd_maxkrdot.
  destruct (fov_eval fov numfov kr) as [fovval dfovdrval].
  intros E. cbn [snd]. rewrite E. reflexivity.
Qed.

Lemma calcthetadotdot_thetadotdot (slewmax gradmax kr krdot Tgsample Tdsample : D)
    (Ninterleaves : Z) (fov : list D) (numfov : Z) :
  fst (calcthetadotdot slewmax gradmax kr krdot Tgsample Tdsample
                       Ninterleaves fov numfov)
  = let '(fovval, dfovdrval) := fov_eval fov numfov kr in
    let tpf := tpf_of fovval Ninterleaves in
    tpf * dfovdrval / fovval * krdot * krdot +
    tpf * snd (calcthetadotdot slewmax gradmax kr krdot Tgsample Tdsample
                               Ninterleaves fov numfov).
Proof.
  unfold calcthetadotdot. destruct fov_eval as [fovval dfovdrval]. reflexivity.
Qed.

End SolverFacts.

(** *** Over the reals *)

Local Open Scope R_scope.

Lemma R_lt_true x y : x < y -> R_lt x y = true.
Proof.
  intros H; unfold R_lt; destruct (Rlt_dec x y); [reflexivity|contradiction].
Qed.

Lemma R_lt_false x y : y <= x -> R_lt x y = false.
Proof. intros H; unfold R_lt; destruct (Rlt_dec x y); [lra|reflexivity]. Qed.

Lemma R_lt_false_inv x y : R_lt x y = false -> y <= x.
Proof. unfold R_lt; destruct (Rlt_dec x y); [discriminate|lra]. Qed.

Lemma R_eq_true x : R_eq x x = true.
Proof. unfold R_eq; destruct (Req_dec_T x x); [reflexivity|contradiction]. Qed.

Lemma R_eq_false x y : x <> y -> R_eq x y = false.
Proof. intros H; unfold R_eq; destruct (Req_dec_T x y); [contradiction|reflexivity]. Qed.

Lemma powerRZ_2 x : powerRZ x 2 = x * x.
Proof. simpl. ring. Qed.

Lemma powerRZ_4 x : powerRZ x 4 = x * x * x * x.
Proof. simpl. ring. Qed.

(** The quadratic formula with the sign the source takes. *)
Lemma larger_root A B C :
  0 < A -> 0 <= B * B / (4 * A * A) - C / A ->
  let x := - B / (2 * A) + sqrt (B * B / (4 * A * A) - C / A) in
  A * x * x + B * x + C = 0 /\ forall y, A * y * y + B * y + C = 0 -> y <= x.
Proof.
  intros HA Hd x.
  set (d := B * B / (4 * A * A) - C / A) in *.
  assert (Hs : sqrt d * sqrt d = d) by (apply sqrt_sqrt; exact Hd).
  assert (Hs0 : 0 <= sqrt d) by apply sqrt_pos.
  set (p := - B / (2 * A)) in *.
  assert (Hp : 2 * A * p = - B) by (unfold p; field; lra).
  assert (HC : C = A * (p * p) - A * d) by (unfold d, p; field; lra).
  subst x. set (s := sqrt d) in *. split.
  - rewrite HC. nra.
  - intros y Hy. rewrite HC in Hy.
    assert (Hsq : (y - p) * (y - p) = s * s) by nra.
    nra.
Qed.

Lemma qdfA_pos (tpf kr : R) : 0 < qdfA_of (dpow tpf 2) kr.
Proof. unfold qdfA_of. rops. rewrite powerRZ_2. nra. Qed.

Lemma ctdd_maxkrdot_nonneg gradmax kr Tdsample Ninterleaves (fov : list R) numfov :
  0 <= ctdd_maxkrdot gradmax kr Tdsample Ninterleaves fov numfov.
Proof.
  unfold ctdd_maxkrdot. destruct fov_eval as [fovval dfovdrval].
  unfold maxkrdot_of. rops. apply sqrt_pos.
Qed.

Lemma fov_eval_const (c kr : R) : fov_eval [c] 1 kr = (c, 0).
Proof.
  unfold fov_eval, for_loop. simpl. unfold aref. simpl. f_equal. ring.
Qed.

Lemma fov_eval_linear (c0 c1 kr : R) :
  fov_eval [c0; c1] 2 kr = (c0 + c1 * kr, c1).
Proof.
  unfold fov_eval, for_loop. simpl. unfold aref. simpl. f_equal; ring.
Qed.

(** From the state [kr = 0], [krdot = 0] the solver is in its slew-limited
    branch, the quadratic is [x^2 - (GAMMA*slewmax)^2] and the root taken
    is the positive one. *)
Lemma ctdd_rootparts_at_rest slewmax Ninterleaves (fov : list R) numfov :
  ctdd_rootparts slewmax 0 0 Ninterleaves fov numfov
  = (0, (4258 * slewmax) * (4258 * slewmax)).
Proof.
  unfold ctdd_rootparts, ctdd_qdf. destruct fov_eval as [fovval dfovdrval].
  set (tpf := tpf_of fovval Ninterleaves).
  assert (HA : qdfA_of (dpow tpf 2) 0 = 1) by (unfold qdfA_of; rops; ring).
  rewrite HA.
  unfold rootparta_of, rootpartb_of, qdfB_of, qdfC_of, GAMMA.
  rops. rewrite !powerRZ_2, !powerRZ_4. unfold Rdiv. rewrite Rinv_1.
  f_equal; ring.
Qed.

Lemma calcthetadotdot_at_rest slewmax gradmax Tgsample Tdsample Ninterleaves
    (fov : list R) numfov :
  snd (calcthetadotdot slewmax gradmax 0 0 Tgsample Tdsample
                       Ninterleaves fov numfov)
  = Rabs (4258 * slewmax).
Proof.
  rewrite calcthetadotdot_slew.
  - rewrite ctdd_rootparts_at_rest. rops.
    rewrite R_lt_false by nra.
    rewrite Rplus_0_l. fold (Rsqr (4258 * slewmax)). apply sqrt_Rsqr_abs.
  - apply R_lt_false. apply ctdd_maxkrdot_nonneg.
Qed.

Section SlewRoot.

Variables (slewmax gradmax kr krdot Tgsample Tdsample : R) (Ninterleaves : Z).
Variables (fov : list R) (numfov : Z).

(** C1 (as amended): in the slew-limited branch, taken when [krdot] does
    not exceed [maxkrdot], and where the divisors [fovval], [Tdsample] and
    [Ninterleaves] of the source are not zero: [rootparta] is
    [-qdfB/(2*qdfA)]; when [rootpartb] is not negative, [krdotdot] is
    [rootparta + sqrt(rootpartb)], it is a root of
    [qdfA*x^2 + qdfB*x + qdfC] and no root is larger (it is the
    algebraically larger root); when [rootpartb] is negative, [krdotdot]
    is [rootparta].  In both cases a value is returned. *)
Theorem calcthetadotdot_slew_larger_root :
  fst (fov_eval fov numfov kr) <> 0 -> Tdsample <> 0 -> Ninterleaves <> 0%Z ->
  krdot <= ctdd_maxkrdot gradmax kr Tdsample Ninterleaves fov numfov ->
  let krdotdot :=
    snd (calcthetadotdot slewmax gradmax kr krdot Tgsample Tdsample
                         Ninterleaves fov numfov) in
  let c := ctdd_qdf slewmax kr krdot Ninterleaves fov numfov in
  let rootparta := fst (ctdd_rootparts slewmax kr krdot Ninterleaves fov numfov) in
  let rootpartb := snd (ctdd_rootparts slewmax kr krdot Ninterleaves fov numfov) in
  rootparta = - snd (fst c) / (2 * fst (fst c)) /\
  (0 <= rootpartb ->
     krdotdot = rootparta + sqrt rootpartb /\
     quadratic c krdotdot = 0 /\
     forall y, quadratic c y = 0 -> y <= krdotdot) /\
  (rootpartb < 0 -> krdotdot = rootparta).
Proof.
  intros _ _ _ Hb krdotdot c rootparta rootpartb.
  assert (Hk : krdotdot =
               if R_lt rootpartb 0 then rootparta else rootparta + sqrt rootpartb).
  { unfold krdotdot. rewrite calcthetadotdot_slew.
    - unfold rootparta, rootpartb.
      destruct ctdd_rootparts as [a b]. reflexivity.
    - apply R_lt_false. exact Hb. }
  clearbody krdotdot.
  unfold rootparta, rootpartb, c, ctdd_rootparts, ctdd_qdf in *.
  destruct (fov_eval fov numfov kr) as [fovval dfovdrval].
  cbn [fst snd] in *.
  pose proof (qdfA_pos (tpf_of fovval Ninterleaves) kr) as HA.
  set (A := qdfA_of _ _) in *.
  set (B := qdfB_of _ _ _ _ _) in *.
  set (C := qdfC_of _ _ _ _ _ _ _) in *.
  unfold rootparta_of, rootpartb_of in *. rops.
  split; [reflexivity|]. split.
  - intros Hd. rewrite (R_lt_false Hd) in Hk. split; [exact Hk|].
    rewrite Hk. unfold quadratic. apply larger_root; assumption.
  - intros Hd. rewrite (R_lt_true Hd) in Hk. exact Hk.
Qed.

End SlewRoot.

(** At the first step of the scenario of the specification the solver is
    in its slew-limited branch and returns [GAMMA*slewmax = 63870000],
    while [-63870000] is a root too: the root returned is not the
    smaller one. *)
Lemma slew_root_not_smallest :
  let krdotdot :=
    snd (calcthetadotdot 15000 4 0 0 (4/1000000) (4/1000000) 16 [24] 1) in
  let c := ctdd_qdf 15000 0 0 16 [24] 1 in
  0 <= ctdd_maxkrdot 4 0 (4/1000000) 16 [24] 1 /\
  krdotdot = 63870000 /\
  ~ (forall y, quadratic c y = 0 -> krdotdot <= y).
Proof.
  intros krdotdot c.
  assert (Hk : krdotdot = 63870000).
  { unfold krdotdot. rewrite calcthetadotdot_at_rest.
    rewrite Rabs_pos_eq; lra. }
  split; [apply ctdd_maxkrdot_nonneg|]. split; [exact Hk|].
  intros H. specialize (H (-63870000)). rewrite Hk in H.
  assert (Hq : quadratic c (-63870000) = 0).
  { unfold c, ctdd_qdf. rewrite fov_eval_const.
    unfold quadratic, qdfA_of, qdfB_of, qdfC_of, tpf_of, GAMMA, PI. rops.
    rewrite !powerRZ_2, !powerRZ_4. unfold Q2R. simpl. field. }
  specialize (H Hq). lra.
Qed.

Lemma calcthetadotdot_slew_larger_root_witness :
  let krdotdot :=
    snd (calcthetadotdot 15000 4 0 0 (4/1000000) (4/1000000) 16 [24] 1) in
  let c := ctdd_qdf 15000 0 0 16 [24] 1 in
  let rootparta := fst (ctdd_rootparts 15000 0 0 16 [24] 1) in
  let rootpartb := snd (ctdd_rootparts 15000 0 0 16 [24] 1) in
  rootparta = - snd (fst c) / (2 * fst (fst c)) /\
  (0 <= rootpartb ->
     krdotdot = rootparta + sqrt rootpartb /\
     quadratic c krdotdot = 0 /\
     forall y, quadratic c y = 0 -> y <= krdotdot) /\
  (rootpartb < 0 -> krdotdot = rootparta).
Proof.
  apply (@calcthetadotdot_slew_larger_root 15000 4 0 0 (4/1000000) (4/1000000)
           16 [24] 1).
  - rewrite fov_eval_const. simpl. lra.
  - lra.
  - discriminate.
  - apply ctdd_maxkrdot_nonneg.
Defined.

(** ** [calc_vds] over the reals *)

Lemma GAMMA_R : GAMMA (D:=R) = 4258.
Proof. reflexivity. Qed.

Lemma PI_R : PI (D:=R) = 3.141592.
Proof. unfold PI. rops. unfold Q2R. simpl. lra. Qed.

Lemma sqrt_lower x y : 0 <= x -> x * x <= y -> x <= sqrt y.
Proof.
  intros Hx Hxy. rewrite <- (sqrt_square x Hx). apply sqrt_le_1_alt. exact Hxy.
Qed.

Lemma vds_cond_init_R (krmax : R) (ngmax : Z) :
  vds_cond krmax ngmax vds_init = true <-> 0 < krmax /\ (0 < ngmax)%Z.
Proof.
  unfold vds_cond. simpl. rops. rewrite andb_true_iff, Z.ltb_lt.
  unfold R_lt. destruct (Rlt_dec 0 krmax); split; intros [H1 H2]; split;
    trivial; (discriminate || contradiction).
Qed.

Lemma calc_vds_passes_agree_witness :
  exists s1 s2 r,
    count_pass 15000 4 (4/1000000) (4/1000000) 16 [24] 1 5 3 3%nat = Some s1 /\
    fill_pass 15000 4 (4/1000000) (4/1000000) 16 [24] 1 5 3 3%nat s1 = Some s2 /\
    calc_vds 15000 4 (4/1000000) (4/1000000) 16 [24] 1 5 3 3%nat = Some r /\
    gradcount s2 = gradcount s1 /\
    numgrad r = gradcount s1 /\
    xgrad r = gxptr s2 /\ ygrad r = gyptr s2 /\
    Z.of_nat (length (xgrad r)) = numgrad r /\
    Z.of_nat (length (ygrad r)) = numgrad r.
Proof.
  apply (@calc_vds_passes_agree R R_double 15000 4 (4/1000000) (4/1000000)
           16 [24] 1 5 3 3%nat).
  simpl. lia.
Defined.

(** With [ngmax = -1] no iteration is done and the count returned is 0,
    which is not at most [ngmax]. *)
Lemma numgrad_above_negative_ngmax :
  exists r,
    calc_vds 15000 4 (4/1000000) (4/1000000) 16 [24] 1 5 (-1) 0%nat = Some r /\
    ~ (numgrad r <= -1)%Z.
Proof.
  exists (mk_vds_result 0 [] []). split.
  - apply calc_vds_no_room. lia.
  - simpl. lia.
Qed.

Lemma calc_vds_numgrad_bound_witness :
  exists r,
    calc_vds 15000 4 (4/1000000) (4/1000000) 16 [24] 1 5 3 3%nat = Some r /\
    (0 <= numgrad r <= Z.max 0 3)%Z /\
    ((0 <= 3)%Z -> (numgrad r <= 3)%Z).
Proof.
  apply (@calc_vds_numgrad_bound R R_double 15000 4 (4/1000000) (4/1000000)
           16 [24] 1 5 3 3%nat).
  simpl. lia.
Defined.

Section ZeroSamples.

Variables (slewmax gradmax Tgsample Tdsample : R) (Ninterleaves : Z).
Variables (fov : list R) (numfov : Z) (krmax : R) (ngmax : Z).

(** C5: [calc_vds] returns the count 0 if and only if [krmax <= 0] or
    [ngmax <= 0]; with [krmax > 0] and [ngmax > 0] the count is at least 1
    and neither buffer is empty. *)
Theorem calc_vds_zero_iff fuel :
  (Z.to_nat ngmax <= fuel)%nat ->
  exists r,
    calc_vds slewmax gradmax Tgsample Tdsample Ninterleaves
             fov numfov krmax ngmax fuel = Some r /\
    (numgrad r = 0%Z <-> krmax <= 0 \/ (ngmax <= 0)%Z) /\
    (0 < krmax -> (0 < ngmax)%Z ->
       (1 <= numgrad r)%Z /\ xgrad r <> [] /\ ygrad r <> []).
Proof.
  intros Hf.
  destruct (@calc_vds_zero_iff_test R _ slewmax gradmax Tgsample Tdsample
              Ninterleaves fov numfov krmax ngmax fuel Hf)
    as (r & Hr & Hiff & Hpos).
  exists r. split; [exact Hr|]. rops. split.
  - rewrite Hiff. split; intros [H|H]; try (now right); left.
    + apply R_lt_false_inv. exact H.
    + apply R_lt_false. exact H.
  - intros Hk Hn. apply Hpos; [apply R_lt_true; exact Hk|exact Hn].
Qed.

End ZeroSamples.

Lemma calc_vds_zero_iff_witness :
  exists r,
    calc_vds 15000 4 (4/1000000) (4/1000000) 16 [24] 1 5 3 3%nat = Some r /\
    (numgrad r = 0%Z <-> 5 <= 0 \/ (3 <= 0)%Z) /\
    (0 < 5 -> (0 < 3)%Z ->
       (1 <= numgrad r)%Z /\ xgrad r <> [] /\ ygrad r <> []).
Proof.
  apply (@calc_vds_zero_iff 15000 4 (4/1000000) (4/1000000) 16 [24] 1 5 3 3%nat).
  simpl. lia.
Defined.

(** *** The radius along the integration *)

Section RadiusStep.

Variables (slewmax gradmax Tgsample Tdsample : R) (Ninterleaves : Z).
Variables (fov : list R) (numfov : Z).


End RadiusStep.


(** A design on which the radius steps backward: slew rate 4258 G/cm/s,
    gradient limit 100 G/cm, gradient period 1/4258 s, data period 1 us,
    one interleave, FOV(kr) = 1 + kr. *)
Section Backward.

Local Abbreviation body :=
  (count_body 4258 100 (1/4258) (1/1000000) 1 [1; 1] 2).

Lemma backward_maxkrdot : 4258 <= ctdd_maxkrdot 100 1 (1/1000000) 1 [1; 1] 2.
Proof.
  unfold ctdd_maxkrdot. rewrite fov_eval_linear.
  unfold gradmax_clamped, gmaxfov_of. rewrite GAMMA_R. rops.
  rewrite R_lt_false by lra.
  unfold maxkrdot_of. rewrite GAMMA_R, PI_R. rops. rewrite !powerRZ_2.
  apply sqrt_lower; lra.
Qed.

Lemma backward_rootparts :
  let p := ctdd_rootparts 4258 1 4258 1 [1; 1] 2 in
  snd p < 0 /\ 4258 + fst p * (1/4258) < -2088.
Proof.
  unfold ctdd_rootparts, ctdd_qdf. rewrite fov_eval_linear.
  unfold rootparta_of, rootpartb_of, qdfA_of, qdfB_of, qdfC_of, tpf_of.
  rewrite GAMMA_R, PI_R. rops. cbn [fst snd]. rewrite !powerRZ_2, !powerRZ_4.
  split; lra.
Qed.

Lemma backward_step1 :
  let s1 := body vds_init in
  gradcount s1 = 1%Z /\ krdot s1 = 4258 /\ kr s1 = 1.
Proof.
  intros s1.
  destruct (count_body_fields 4258 100 (1/4258) (1/1000000) 1 [1; 1] 2 vds_init)
    as (Hg & Hkd & Hk & _).
  fold s1 in Hg, Hkd, Hk. cbn [kr krdot gradcount vds_init] in Hg, Hkd, Hk. rops.
  rewrite calcthetadotdot_at_rest in Hkd.
  rewrite Rabs_pos_eq in Hkd by lra.
  assert (E : krdot s1 = 4258) by (rewrite Hkd; field).
  split; [exact Hg|]. split; [exact E|]. rewrite Hk, E. field.
Qed.

Lemma backward_step2 :
  let s2 := body (body vds_init) in
  gradcount s2 = 2%Z /\ krdot s2 < -2088 /\ kr s2 < 0.51.
Proof.
  intros s2. destruct backward_step1 as (Hg1 & Hkd1 & Hk1).
  destruct (count_body_fields 4258 100 (1/4258) (1/1000000) 1 [1; 1] 2
              (body vds_init)) as (Hg & Hkd & Hk & _).
  fold s2 in Hg, Hkd, Hk. rops. rewrite Hk1, Hkd1 in *. rewrite Hg1 in Hg.
  split; [exact Hg|].
  rewrite calcthetadotdot_slew in Hkd
    by (apply R_lt_false; apply backward_maxkrdot).
  destruct backward_rootparts as [Hb Ha].
  destruct (ctdd_rootparts 4258 1 4258 1 [1; 1] 2) as [a b].
  cbn [fst snd] in *. rops. rewrite (R_lt_true Hb) in Hkd.
  rewrite <- Hkd in Ha. split; [exact Ha|]. rewrite Hk. lra.
Qed.


End Backward.

(** *** The scenario of the specification *)

Section Scenario.

(** The angle reached by the first iteration *)
Local Abbreviation theta1 := (9.424776 * 0.00102192).

Lemma scenario_at_rest :
  calcthetadotdot 15000 4 0 0 (4/1000000) (4/1000000) 16 [24] 1
  = (9.424776 * 63870000, 63870000).
Proof.
  rewrite (surjective_pairing (calcthetadotdot _ _ _ _ _ _ _ _ _)).
  rewrite calcthetadotdot_thetadotdot, calcthetadotdot_at_rest.
  rewrite fov_eval_const. rewrite Rabs_pos_eq by lra.
  unfold tpf_of. rewrite PI_R. rops. f_equal; lra.
Qed.

(** In the scenario the function returns and the first sample it has
    stored is [(0.06 * cos theta1, 0.06 * sin theta1)]. *)
Lemma scenario_first_sample fuel :
  (Z.to_nat 50000 <= fuel)%nat ->
  exists r,
    calc_vds 15000 4 (4/1000000) (4/1000000) 16 [24] 1 5 50000 fuel = Some r /\
    nth 0 (xgrad r) 0 = 0.06 * cos theta1 /\
    nth 0 (ygrad r) 0 = 0.06 * sin theta1.
Proof.
  intros Hf.
  destruct (@calc_vds_total R _ 15000 4 (4/1000000) (4/1000000) 16 [24] 1 5
              50000 fuel Hf) as (s1 & s2 & H1 & H2 & Hr & _).
  exists (mk_vds_result (gradcount s1) (gxptr s2) (gyptr s2)).
  split; [exact Hr|]. cbn [xgrad ygrad].
  assert (Hc : vds_cond 5 50000 (vds_init (D:=R)) = true)
    by (apply vds_cond_init_R; split; [lra|lia]).
  destruct (fill_pass_first_sample _ _ _ _ _ _ _ _ _ _ 0 H1 H2 Hc) as (Hx & Hy).
  rewrite Hx, Hy. rops. rewrite scenario_at_rest, GAMMA_R. cbn [fst snd].
  replace (0 + (0 + 9.424776 * 63870000 * (4 / 1000000)) * (4 / 1000000))
    with theta1 by lra.
  split; lra.
Qed.

(** C7 (as amended): for the scenario inputs the function returns, and the
    first gradient sample it has written is
    [(0.06 * cos theta1, 0.06 * sin theta1)] with
    [theta1 = 9.424776 * 0.00102192]: a vector of magnitude
    [slewmax * Tgsample = 0.06], not the zero vector. *)
Theorem scenario_first_gradient fuel :
  (Z.to_nat 50000 <= fuel)%nat ->
  exists r,
    calc_vds 15000 4 (4/1000000) (4/1000000) 16 [24] 1 5 50000 fuel = Some r /\
    nth 0 (xgrad r) 0 = 0.06 * cos theta1 /\
    nth 0 (ygrad r) 0 = 0.06 * sin theta1 /\
    nth 0 (xgrad r) 0 * nth 0 (xgrad r) 0 +
    nth 0 (ygrad r) 0 * nth 0 (ygrad r) 0 = 0.06 * 0.06.
Proof.
  intros Hf. destruct (scenario_first_sample Hf) as (r & Hr & Hx & Hy).
  exists r. split; [exact Hr|]. split; [exact Hx|]. split; [exact Hy|].
  rewrite Hx, Hy. pose proof (sin2_cos2 theta1) as H. unfold Rsqr in H. nra.
Qed.

(** In the scenario the first gradient sample is not [(0, 0)]. *)
Lemma scenario_first_gradient_nonzero :
  exists r,
    calc_vds 15000 4 (4/1000000) (4/1000000) 16 [24] 1 5 50000
             (Z.to_nat 50000) = Some r /\
    (nth 0 (xgrad r) 0, nth 0 (ygrad r) 0) <> (0, 0).
Proof.
  destruct (@scenario_first_sample (Z.to_nat 50000) (Nat.le_refl _))
    as (r & Hr & Hx & Hy).
  exists r. split; [exact Hr|]. rewrite Hx, Hy. intros [= Ex Ey].
  pose proof (sin2_cos2 theta1) as H. unfold Rsqr in H. nra.
Qed.

End Scenario.

Lemma scenario_first_gradient_witness :
  exists r,
    calc_vds 15000 4 (4/1000000) (4/1000000) 16 [24] 1 5 50000
             (Z.to_nat 50000) = Some r /\
    nth 0 (xgrad r) 0 = 0.06 * cos (9.424776 * 0.00102192) /\
    nth 0 (ygrad r) 0 = 0.06 * sin (9.424776 * 0.00102192) /\
    nth 0 (xgrad r) 0 * nth 0 (xgrad r) 0 +
    nth 0 (ygrad r) 0 * nth 0 (ygrad r) 0 = 0.06 * 0.06.
Proof.
  apply (@scenario_first_gradient (Z.to_nat 50000)).
  apply Nat.le_refl.
Defined.

(** ** [calc_traj] *)

(** Reading a concatenation of blocks of equal length. *)
Lemma nth_flat_map_block {A : Type} (f : nat -> list A) (m : nat) (d : A) :
  (forall i, length (f i) = m) ->
  forall n a i j, (i < n)%nat -> (j < m)%nat ->
  nth (i * m + j) (flat_map f (seq a n)) d = nth j (f (a + i)%nat) d.
Proof.
  intros Hlen; induction n as [|n IH]; intros a i j Hi Hj; [lia|].
  simpl. destruct i as [|i].
  - simpl. rewrite app_nth1 by (rewrite Hlen; exact Hj).
    now rewrite Nat.add_0_r.
  - rewrite app_nth2 by (rewrite Hlen; simpl; lia).
    rewrite Hlen.
    replace (S i * m + j - m)%nat with (i * m + j)%nat by (simpl; lia).
    rewrite IH by lia. f_equal. f_equal. lia.
Qed.

Lemma length_flat_map_block {A : Type} (f : nat -> list A) (m : nat) :
  (forall i, length (f i) = m) ->
  forall n a, length (flat_map f (seq a n)) = (n * m)%nat.
Proof.
  intros Hlen; induction n as [|n IH]; intros a; simpl; [reflexivity|].
  now rewrite length_app, Hlen, IH.
Qed.

Lemma nth_map_seq {A : Type} (f : nat -> A) (a n j : nat) (d : A) :
  (j < n)%nat -> nth j (map f (seq a n)) d = f (a + j)%nat.
Proof.
  intros Hj.
  rewrite (nth_indep _ d (f 0%nat)) by (rewrite length_map, length_seq; exact Hj).
  rewrite map_nth, seq_nth by exact Hj. reflexivity.
Qed.

Section TrajFacts.

Context {D : Type} {ops : DoubleOps D}.
Variables (xgrad ygrad : list D) (ngrad Nints : Z) (Tgsamp krmax : D).

Local Abbreviation body := (traj_body xgrad ygrad Tgsamp krmax).
Local Abbreviation ibody := (inter_body xgrad ygrad ngrad Nints Tgsamp krmax).
Local Abbreviation rot := (rotation_of Nints).
Local Abbreviation pos := (traj_pos Tgsamp).
Local Abbreviation tx := (tx_at xgrad ygrad Tgsamp krmax).
Local Abbreviation ty := (ty_at xgrad ygrad Tgsamp krmax).
Local Abbreviation w := (w_at xgrad ygrad Tgsamp).

(** Iteration [k] of the inner loop, entered with the accumulators of
    iteration [k - 1] (or with 0 when [k = 0]). *)
Lemma traj_body_at rotation k s :
  x_tr s = pos xgrad (pred k) -> y_tr s = pos ygrad (pred k) ->
  body rotation (Z.of_nat k) s
  = mk_traj_state (pos xgrad k) (pos ygrad k)
      (txptr s ++ [tx rotation k]) (typtr s ++ [ty rotation k])
      (wptr s ++ [w k]).
Proof.
  intros Hx Hy. unfold traj_body, tx_at, ty_at, w_at.
  destruct k as [|k].
  - simpl in *. rewrite Hx, Hy. reflexivity.
  - replace (0 <? Z.of_nat (S k))%Z with true by (symmetry; apply Z.ltb_lt; lia).
    replace (Z.of_nat (S k) - 1)%Z with (Z.of_nat k) by lia.
    simpl pred in *. rewrite Hx, Hy. reflexivity.
Qed.

Lemma traj_inner rotation n : forall k s,
  x_tr s = pos xgrad (pred k) -> y_tr s = pos ygrad (pred k) ->
  let s' := for_from (Z.of_nat k) n (body rotation) s in
  txptr s' = txptr s ++ map (tx rotation) (seq k n) /\
  typtr s' = typtr s ++ map (ty rotation) (seq k n) /\
  wptr s' = wptr s ++ map w (seq k n).
Proof.
  induction n as [|n IH]; intros k s Hx Hy; simpl.
  - now rewrite !app_nil_r.
  - rewrite (traj_body_at _ _ _ Hx Hy).
    replace (Z.of_nat k + 1)%Z with (Z.of_nat (S k)) by lia.
    destruct (IH (S k) (mk_traj_state (pos xgrad k) (pos ygrad k)
      (txptr s ++ [tx rotation k]) (typtr s ++ [ty rotation k])
      (wptr s ++ [w k]))) as (H1 & H2 & H3); try reflexivity.
    rewrite H1, H2, H3. simpl. now rewrite <- !app_assoc.
Qed.

Lemma traj_outer n : forall i s,
  let s' := for_from (Z.of_nat i) n ibody s in
  txptr s' = txptr s ++
    flat_map (fun i => map (tx (rot (Z.of_nat i))) (seq 0 (Z.to_nat ngrad)))
             (seq i n) /\
  typtr s' = typtr s ++
    flat_map (fun i => map (ty (rot (Z.of_nat i))) (seq 0 (Z.to_nat ngrad)))
             (seq i n) /\
  wptr s' = wptr s ++
    flat_map (fun _ => map w (seq 0 (Z.to_nat ngrad))) (seq i n).
Proof.
  induction n as [|n IH]; intros i s; simpl.
  - now rewrite !app_nil_r.
  - replace (Z.of_nat i + 1)%Z with (Z.of_nat (S i)) by lia.
    destruct (IH (S i) (ibody (Z.of_nat i) s)) as (H1 & H2 & H3).
    rewrite H1, H2, H3. clear IH H1 H2 H3.
    unfold inter_body, for_loop.
    destruct (traj_inner (rot (Z.of_nat i)) (Z.to_nat ngrad) 0
      (mk_traj_state (dofZ 0) (dofZ 0) (txptr s) (typtr s) (wptr s)))
      as (H1 & H2 & H3); try reflexivity.
    simpl Z.of_nat in *.
    rewrite H1, H2, H3. simpl. now rewrite <- !app_assoc.
Qed.

(** The three buffers, interleave after interleave. *)
Lemma calc_traj_flat :
  let r := calc_traj xgrad ygrad ngrad Nints Tgsamp krmax in
  x_trajectory r =
    flat_map (fun i => map (tx (rot (Z.of_nat i))) (seq 0 (Z.to_nat ngrad)))
             (seq 0 (Z.to_nat Nints)) /\
  y_trajectory r =
    flat_map (fun i => map (ty (rot (Z.of_nat i))) (seq 0 (Z.to_nat ngrad)))
             (seq 0 (Z.to_nat Nints)) /\
  weights r =
    flat_map (fun _ => map w (seq 0 (Z.to_nat ngrad))) (seq 0 (Z.to_nat Nints)).
Proof.
  unfold calc_traj, for_loop. simpl.
  destruct (traj_outer (Z.to_nat Nints) 0 traj_init) as (H1 & H2 & H3).
  simpl Z.of_nat in *. rewrite H1, H2, H3. repeat split.
Qed.

Lemma calc_traj_length :
  let r := calc_traj xgrad ygrad ngrad Nints Tgsamp krmax in
  length (x_trajectory r) = (Z.to_nat Nints * Z.to_nat ngrad)%nat /\
  length (y_trajectory r) = (Z.to_nat Nints * Z.to_nat ngrad)%nat /\
  length (weights r) = (Z.to_nat Nints * Z.to_nat ngrad)%nat.
Proof.
  intros r. destruct calc_traj_flat as (H1 & H2 & H3).
  unfold r. rewrite H1, H2, H3.
  repeat split; apply length_flat_map_block; intros;
    now rewrite length_map, length_seq.
Qed.

(** What is stored for sample [j] of interleave [i]. *)
Lemma calc_traj_at i j d :
  (0 <= i < Nints)%Z -> (0 <= j < ngrad)%Z ->
  let r := calc_traj xgrad ygrad ngrad Nints Tgsamp krmax in
  nth (traj_index ngrad i j) (x_trajectory r) d = tx (rot i) (Z.to_nat j) /\
  nth (traj_index ngrad i j) (y_trajectory r) d = ty (rot i) (Z.to_nat j) /\
  nth (traj_index ngrad i j) (weights r) d = w (Z.to_nat j).
Proof.
  intros Hi Hj r. destruct calc_traj_flat as (H1 & H2 & H3).
  unfold r. rewrite H1, H2, H3.
  assert (E : traj_index ngrad i j
              = (Z.to_nat i * Z.to_nat ngrad + Z.to_nat j)%nat).
  { unfold traj_index. nia. }
  rewrite E.
  rewrite !(@nth_flat_map_block _ _ (Z.to_nat ngrad)); try lia;
    try (intros; now rewrite length_map, length_seq).
  rewrite !nth_map_seq by lia. simpl.
  rewrite Z2Nat.id by lia. repeat split.
Qed.

End TrajFacts.

(** *** Over the reals *)

Lemma rotation_of_R Nints i :
  rotation_of (D:=R) Nints i = 2 * 3.141592 * IZR i / IZR Nints.
Proof.
  unfold rotation_of. rewrite PI_R. rops. rewrite mult_IZR. lra.
Qed.

Lemma ang_g_of_R (xg yg : R) :
  (xg = 0 -> ang_g_of xg yg = 3.141592 / 2) /\
  (xg <> 0 -> ang_g_of xg yg = R_atan2 yg xg).
Proof.
  unfold ang_g_of. rewrite PI_R. rops. split; intros H.
  - rewrite H, R_eq_true. reflexivity.
  - rewrite R_eq_false by exact H. reflexivity.
Qed.

Lemma ang_t_of_R (x y : R) :
  (x = 0 -> ang_t_of x y = 3.141592 / 2) /\
  (x <> 0 -> ang_t_of x y = R_atan2 y x).
Proof.
  unfold ang_t_of. rewrite PI_R. rops. split; intros H.
  - rewrite H, R_eq_true. reflexivity.
  - rewrite R_eq_false by exact H. reflexivity.
Qed.

Lemma R_atan2_down : R_atan2 (-1) 0 = - (Rtrigo1.PI / 2).
Proof.
  unfold R_atan2.
  destruct (Rlt_dec 0 0); [lra|].
  destruct (Rlt_dec 0 (-1)); [lra|].
  destruct (Rlt_dec (-1) 0); [reflexivity|lra].
Qed.

(** The weight is a magnitude times the absolute value of a sine. *)
Lemma weight_of_R (xg yg x y : R) :
  weight_of xg yg x y
  = sqrt (xg * xg + yg * yg) * Rabs (sin (ang_g_of xg yg - ang_t_of x y)).
Proof.
  unfold weight_of. rops. rewrite !powerRZ_2.
  f_equal. apply sqrt_Rsqr_abs.
Qed.

Lemma weight_of_nonneg (xg yg x y : R) : 0 <= weight_of xg yg x y.
Proof.
  rewrite weight_of_R. apply Rmult_le_pos; [apply sqrt_pos|apply Rabs_pos].
Qed.

Section TrajReal.

Variables (xgrad ygrad : list R) (ngrad Nints : Z) (Tgsamp krmax : R).

(** C4 (as amended): the weight stored for sample [j] of an interleave is
    [|g| * |sin(ang_g - ang_t)|], where [ang_g] is the fixed value
    [PI/2 = 3.141592/2] exactly when the x-component [xgrad[j]] of the
    gradient is zero and [atan2(ygrad[j], xgrad[j])] otherwise, and
    [ang_t] is [PI/2] exactly when the x-component [x_tr] of the position
    is zero and [atan2(y_tr, x_tr)] otherwise; a weight is stored in every
    case. *)
Theorem calc_traj_angle_guards i j :
  (0 <= i < Nints)%Z -> (0 <= j < ngrad)%Z ->
  let r := calc_traj xgrad ygrad ngrad Nints Tgsamp krmax in
  let xg := aref xgrad j in
  let yg := aref ygrad j in
  let x := traj_pos Tgsamp xgrad (Z.to_nat j) in
  let y := traj_pos Tgsamp ygrad (Z.to_nat j) in
  nth (traj_index ngrad i j) (weights r) 0
    = sqrt (xg * xg + yg * yg) * Rabs (sin (ang_g_of xg yg - ang_t_of x y)) /\
  (xg = 0 -> ang_g_of xg yg = 3.141592 / 2) /\
  (xg <> 0 -> ang_g_of xg yg = R_atan2 yg xg) /\
  (x = 0 -> ang_t_of x y = 3.141592 / 2) /\
  (x <> 0 -> ang_t_of x y = R_atan2 y x).
Proof.
  intros Hi Hj r xg yg x y.
  destruct (calc_traj_at xgrad ygrad Tgsamp krmax 0 Hi Hj) as (_ & _ & Hw).
  unfold r. rewrite Hw. unfold w_at. rewrite Z2Nat.id by lia.
  split; [apply weight_of_R|].
  split; [apply ang_g_of_R|]. split; [apply ang_g_of_R|].
  split; apply ang_t_of_R.
Qed.

(** C8 (as amended): for a non-zero [krmax] and at most [2^30]
    interleaves, the trajectory point stored for sample [j] of interleave
    [i] (both indices within the buffers) is the point stored for sample
    [j] of interleave 0, rotated about the origin clockwise by the angle
    [2*PI*i/Nints], that is by [-2*PI*i/Nints] in the counter-clockwise
    orientation of [rotate], [PI] being the constant 3.141592 of the
    source. *)
Theorem calc_traj_rotation_symmetry i j :
  krmax <> 0 -> (Nints <= 2 ^ 30)%Z ->
  (0 <= i < Nints)%Z -> (0 <= j < ngrad)%Z ->
  let r := calc_traj xgrad ygrad ngrad Nints Tgsamp krmax in
  (traj_index ngrad i j < length (x_trajectory r))%nat /\
  (traj_index ngrad i j < length (y_trajectory r))%nat /\
  (traj_index ngrad 0 j < length (x_trajectory r))%nat /\
  (traj_index ngrad 0 j < length (y_trajectory r))%nat /\
  traj_point r ngrad i j
  = rotate (- (2 * 3.141592 * IZR i / IZR Nints)) (traj_point r ngrad 0 j).
Proof.
  intros Hk _ Hi Hj r.
  destruct (calc_traj_length xgrad ygrad ngrad Nints Tgsamp krmax)
    as (Lx & Ly & _).
  fold r in Lx, Ly. rewrite Lx, Ly.
  assert (Ri : (traj_index ngrad i j < Z.to_nat Nints * Z.to_nat ngrad)%nat)
    by (unfold traj_index; nia).
  assert (R0 : (traj_index ngrad 0 j < Z.to_nat Nints * Z.to_nat ngrad)%nat)
    by (unfold traj_index; nia).
  split; [exact Ri|]. split; [exact Ri|].
  split; [exact R0|]. split; [exact R0|].
  unfold traj_point, r.
  destruct (calc_traj_at xgrad ygrad Tgsamp krmax 0 Hi Hj) as (Hx & Hy & _).
  assert (H0 : (0 <= 0 < Nints)%Z) by lia.
  destruct (calc_traj_at xgrad ygrad Tgsamp krmax 0 H0 Hj) as (Hx0 & Hy0 & _).
  rewrite Hx, Hy, Hx0, Hy0. unfold tx_at, ty_at, rotate.
  rewrite !rotation_of_R. rops. cbn [fst snd].
  replace (2 * 3.141592 * 0 / IZR Nints) with 0 by (unfold Rdiv; ring).
  rewrite cos_0, sin_0, cos_neg, sin_neg.
  f_equal; unfold Rdiv; ring.
Qed.

(** C9: every weight stored by [calc_traj] is at least 0, being the
    product of a square root (the gradient magnitude) and the absolute
    value of a sine. *)
Theorem calc_traj_weights_nonneg :
  Forall (fun w => 0 <= w /\
            exists xg yg x y,
              w = sqrt (xg * xg + yg * yg) *
                  Rabs (sin (ang_g_of xg yg - ang_t_of x y)))
         (weights (calc_traj xgrad ygrad ngrad Nints Tgsamp krmax)).
Proof.
  destruct (calc_traj_flat xgrad ygrad ngrad Nints Tgsamp krmax) as (_ & _ & H).
  rewrite H. apply Forall_forall. intros w Hin.
  apply in_flat_map in Hin as (i & _ & Hin).
  apply in_map_iff in Hin as (j & <- & _). unfold w_at.
  split; [apply weight_of_nonneg|].
  eexists _, _, _, _. apply weight_of_R.
Qed.

(** C10: for a non-zero [krmax] and [ngrad >= 1], the entry at index
    [i*ngrad] of the trajectory buffers, which is the first sample of
    interleave [i], is [(0, 0)], for every [i] in [[0, Nints)]. *)
Theorem calc_traj_first_sample i :
  krmax <> 0 -> (0 <= i < Nints)%Z -> (1 <= ngrad)%Z ->
  let r := calc_traj xgrad ygrad ngrad Nints Tgsamp krmax in
  Z.to_nat (i * ngrad) = traj_index ngrad i 0 /\
  nth (Z.to_nat (i * ngrad)) (x_trajectory r) 1 = 0 /\
  nth (Z.to_nat (i * ngrad)) (y_trajectory r) 1 = 0.
Proof.
  intros Hk Hi Hn r.
  assert (E : Z.to_nat (i * ngrad) = traj_index ngrad i 0).
  { unfold traj_index. f_equal. lia. }
  split; [exact E|]. rewrite E.
  assert (Hj : (0 <= 0 < ngrad)%Z) by lia.
  destruct (calc_traj_at xgrad ygrad Tgsamp krmax 1 Hi Hj) as (Hx & Hy & _).
  unfold r. rewrite Hx, Hy. unfold tx_at, ty_at. simpl. rops.
  split; unfold Rdiv; ring.
Qed.

End TrajReal.

(** The gradient vector [(0, -1)] is not the zero vector, yet its angle is
    replaced by [PI/2], which is not its [atan2]; likewise for a position
    [(0, -1)]. *)
Lemma angle_guard_on_nonzero_vector :
  (0, -1) <> (0, 0) /\
  ang_g_of 0 (-1) = 3.141592 / 2 /\ ang_g_of 0 (-1) <> R_atan2 (-1) 0 /\
  ang_t_of 0 (-1) = 3.141592 / 2 /\ ang_t_of 0 (-1) <> R_atan2 (-1) 0.
Proof.
  destruct (ang_g_of_R 0 (-1)) as [Hg _]. specialize (Hg eq_refl).
  destruct (ang_t_of_R 0 (-1)) as [Ht _]. specialize (Ht eq_refl).
  pose proof PI_RGT_0 as Hpi.
  split; [intros [= H]; lra|].
  split; [exact Hg|]. split; [rewrite Hg, R_atan2_down; lra|].
  split; [exact Ht|]. rewrite Ht, R_atan2_down; lra.
Qed.

Lemma calc_traj_angle_guards_witness :
  let r := calc_traj [0; 3] [-1; 4] 2 2 (4/1000000) 5 in
  let xg := aref [0; 3] 0 in
  let yg := aref [-1; 4] 0 in
  let x := traj_pos (4/1000000) [0; 3] (Z.to_nat 0) in
  let y := traj_pos (4/1000000) [-1; 4] (Z.to_nat 0) in
  nth (traj_index 2 1 0) (weights r) 0
    = sqrt (xg * xg + yg * yg) * Rabs (sin (ang_g_of xg yg - ang_t_of x y)) /\
  (xg = 0 -> ang_g_of xg yg = 3.141592 / 2) /\
  (xg <> 0 -> ang_g_of xg yg = R_atan2 yg xg) /\
  (x = 0 -> ang_t_of x y = 3.141592 / 2) /\
  (x <> 0 -> ang_t_of x y = R_atan2 y x).
Proof.
  apply (@calc_traj_angle_guards [0; 3] [-1; 4] 2 2 (4/1000000) 5 1 0); lia.
Defined.

Lemma calc_traj_rotation_symmetry_witness :
  let r := calc_traj [0; 3] [-1; 4] 2 2 (4/1000000) 5 in
  (traj_index 2 1 1 < length (x_trajectory r))%nat /\
  (traj_index 2 1 1 < length (y_trajectory r))%nat /\
  (traj_index 2 0 1 < length (x_trajectory r))%nat /\
  (traj_index 2 0 1 < length (y_trajectory r))%nat /\
  traj_point r 2 1 1
  = rotate (- (2 * 3.141592 * IZR 1 / IZR 2)) (traj_point r 2 0 1).
Proof.
  apply (@calc_traj_rotation_symmetry [0; 3] [-1; 4] 2 2 (4/1000000) 5 1 1);
    [lra | lia | lia | lia].
Defined.

(** With four interleaves, the point [(4258, 0)] of interleave 0 is taken
    by interleave 1 to a point below the axis, not to its image
    [(0, 4258)] under the rotation by [2*pi/4], nor to its image under
    the rotation by [2*3.141592/4]. *)
Lemma rotation_is_clockwise :
  let r := calc_traj [1; 0] [0; 0] 2 4 1 1 in
  traj_point r 2 0 1 = (4258, 0) /\
  snd (traj_point r 2 1 1) < 0 /\
  traj_point r 2 1 1
    <> rotate (2 * Rtrigo1.PI * IZR 1 / IZR 4) (traj_point r 2 0 1) /\
  traj_point r 2 1 1
    <> rotate (2 * 3.141592 * IZR 1 / IZR 4) (traj_point r 2 0 1).
Proof.
  intros r.
  assert (H1 : (0 <= 1 < 4)%Z) by lia.
  assert (H0 : (0 <= 0 < 4)%Z) by lia.
  assert (Hj : (0 <= 1 < 2)%Z) by lia.
  destruct (calc_traj_at [1; 0] [0; 0] 1 1 0 H1 Hj) as (Hx & Hy & _).
  destruct (calc_traj_at [1; 0] [0; 0] 1 1 0 H0 Hj) as (Hx0 & Hy0 & _).
  fold r in Hx, Hy, Hx0, Hy0.
  assert (P0 : traj_point r 2 0 1 = (4258, 0)).
  { unfold traj_point. rewrite Hx0, Hy0. unfold tx_at, ty_at.
    rewrite rotation_of_R. simpl. unfold aref. simpl.
    replace (2 * 3.141592 * 0 / 4) with 0 by lra.
    rewrite cos_0, sin_0. f_equal; field. }
  set (a := 2 * 3.141592 * 1 / 4).
  assert (Ha : 0 < sin a).
  { pose proof PI2_1. apply sin_gt_0; unfold a; lra. }
  assert (P1 : snd (traj_point r 2 1 1) = - (4258 * sin a)).
  { unfold traj_point. cbn [snd]. rewrite Hy. unfold ty_at.
    rewrite rotation_of_R. simpl. unfold aref. simpl.
    fold a. field. }
  split; [exact P0|]. split; [rewrite P1; lra|].
  rewrite P0. unfold rotate. cbn [fst snd]. split; intros E.
  - apply (f_equal snd) in E. rewrite P1 in E. cbn [snd] in E.
    replace (2 * Rtrigo1.PI * 1 / 4) with (Rtrigo1.PI / 2) in E by lra.
    rewrite sin_PI2, cos_PI2 in E. lra.
  - apply (f_equal snd) in E. rewrite P1 in E. cbn [snd] in E.
    fold a in E. lra.
Qed.

Lemma calc_traj_first_sample_witness :
  let r := calc_traj [0; 3] [-1; 4] 2 2 (4/1000000) 5 in
  Z.to_nat (1 * 2) = traj_index 2 1 0 /\
  nth (Z.to_nat (1 * 2)) (x_trajectory r) 1 = 0 /\
  nth (Z.to_nat (1 * 2)) (y_trajectory r) 1 = 0.
Proof.
  apply (@calc_traj_first_sample [0; 3] [-1; 4] 2 2 (4/1000000) 5 1);
    [lra | lia | lia].
Defined.

(** ** Runs in binary64 arithmetic

    The embedding evaluated with machine doubles, the trigonometric
    functions being arbitrary: the scenario of the specification takes
    2960 samples, fewer than [ngmax]; and on the design of section
    [Backward] the third radius visited is below the second one in this
    arithmetic as well. *)

Section FloatRuns.

Variables (fcos fsin : PrimFloat.float -> PrimFloat.float).
Variable (fatan2 : PrimFloat.float -> PrimFloat.float -> PrimFloat.float).
Variable (ffloat : PrimFloat.float -> PrimFloat.float).

Local Abbreviation F := (float_double fcos fsin fatan2 ffloat).
Local Abbreviation ratio a b := (PrimFloat.div (float_ofZ a) (float_ofZ b)).

Example float_scenario_count :
  option_map (fun r => (numgrad r, length (xgrad r), length (ygrad r)))
    (calc_vds (ops:=F) (float_ofZ 15000) (float_ofZ 4)
       (ratio 4 1000000) (ratio 4 1000000)
       16 [float_ofZ 24] 1 (float_ofZ 5) 50000 (Z.to_nat 50000))
  = Some (2960%Z, 2960%nat, 2960%nat).
Proof. vm_compute. reflexivity. Qed.

Example float_radius_backward :
  match kr_visited (ops:=F) (float_ofZ 4258) (float_ofZ 100)
          (ratio 1 4258) (ratio 1 1000000)
          1 [float_ofZ 1; float_ofZ 1] 2 (float_ofZ 5) 2 2%nat with
  | [k0; k1; k2] =>
      PrimFloat.eqb k0 (float_ofZ 0) && PrimFloat.eqb k1 (float_ofZ 1) &&
      PrimFloat.ltb k2 (ratio 51 100)
  | _ => false
  end = true.
Proof. vm_compute. reflexivity. Qed.

End FloatRuns.

(** * Further properties *)

(** ** The FOV model *)

(** A [for] loop only looks at its body on the indices it runs through. *)
Lemma for_from_ext {St : Type} (body body' : Z -> St -> St) :
  forall n i s,
  (forall k s, (i <= k < i + Z.of_nat n)%Z -> body k s = body' k s) ->
  for_from i n body s = for_from i n body' s.
Proof.
  induction n as [|n IH]; intros i s H; simpl; [reflexivity|].
  rewrite (H i s) by lia. apply IH. intros k s' Hk. apply H. lia.
Qed.

Section FovP.
Context {D : Type} {ops : DoubleOps D}.

Lemma aref_app (a b : list D) (i : Z) :
  (0 <= i < Z.of_nat (length a))%Z -> aref (a ++ b) i = aref a i.
Proof.
  intros Hi. unfold aref. apply app_nth1. lia.
Qed.

(** X3: the FOV loop of [calcthetadotdot] reads the coefficients
    [fov[0]] to [fov[numfov-1]] only: whatever follows them in memory does
    not change [fovval] or [dfovdrval], in any arithmetic. *)
Theorem fov_eval_reads_numfov (fov rest : list D) (numfov : Z) (kr : D) :
  (numfov <= Z.of_nat (length fov))%Z ->
  fov_eval (fov ++ rest) numfov kr = fov_eval fov numfov kr.
Proof.
  intros Hn. unfold fov_eval, for_loop. apply for_from_ext.
  intros k [a b] Hk. unfold fov_body.
  rewrite aref_app by lia. reflexivity.
Qed.

(** Without coefficients both sums are empty. *)
Lemma fov_eval_no_coefficient (fov : list D) (numfov : Z) (kr : D) :
  (numfov <= 0)%Z -> fov_eval fov numfov kr = (dofZ 0, dofZ 0).
Proof.
  intros Hn. unfold fov_eval, for_loop.
  replace (Z.to_nat numfov) with 0%nat by lia. reflexivity.
Qed.
End FovP.


Lemma powerRZ_of_nat x (n : nat) : powerRZ x (Z.of_nat n) = x ^ n.
Proof. rewrite <- pow_powerRZ. reflexivity. Qed.

Lemma aref_of_nat (fov : list R) (i : nat) : aref fov (Z.of_nat i) = nth i fov 0.
Proof. unfold aref. rewrite Nat2Z.id. reflexivity. Qed.


Section FovR.
Variables (fov : list R) (kr : R).

Let term (i : nat) : R := nth i fov 0 * kr ^ i.
Let dterm (i : nat) : R := INR i * nth i fov 0 * kr ^ pred i.

Lemma fov_body_succ k a b :
  fov_body fov kr (Z.of_nat (S k)) (a, b) = (a + term (S k), b + dterm (S k)).
Proof.
  unfold fov_body, term, dterm.
  replace (0 <? Z.of_nat (S k))%Z with true by (symmetry; apply Z.ltb_lt; lia).
  replace (Z.of_nat (S k) - 1)%Z with (Z.of_nat k) by lia.
  rops. rewrite !aref_of_nat, !powerRZ_of_nat, <- INR_IZR_INZ. reflexivity.
Qed.

Lemma fov_body_zero a b :
  fov_body fov kr 0 (a, b) = (a + term 0, b + dterm 0).
Proof.
  unfold fov_body, term, dterm. simpl. rops.
  change 0%Z with (Z.of_nat 0). rewrite aref_of_nat. f_equal; ring.
Qed.

Lemma fov_loop_from n : forall k a b,
  for_from (Z.of_nat (S k)) n (fov_body fov kr)
    (a + sum_f_R0 term k, b + sum_f_R0 dterm k)
  = (a + sum_f_R0 term (k + n), b + sum_f_R0 dterm (k + n)).
Proof.
  induction n as [|n IH]; intros k a b.
  - simpl. now rewrite Nat.add_0_r.
  - cbn [for_from]. rewrite fov_body_succ.
    replace (Z.of_nat (S k) + 1)%Z with (Z.of_nat (S (S k))) by lia.
    rewrite !Rplus_assoc.
    change (sum_f_R0 term k + term (S k)) with (sum_f_R0 term (S k)).
    change (sum_f_R0 dterm k + dterm (S k)) with (sum_f_R0 dterm (S k)).
    rewrite IH. now replace (S k + n)%nat with (k + S n)%nat by lia.
Qed.

Lemma fov_eval_sums numfov :
  (1 <= numfov)%Z ->
  fov_eval fov numfov kr
  = (sum_f_R0 (fun i => nth i fov 0 * kr ^ i) (Z.to_nat numfov - 1),
     sum_f_R0 (fun i => INR i * nth i fov 0 * kr ^ pred i) (Z.to_nat numfov - 1)).
Proof.
  intros Hn. unfold fov_eval, for_loop.
  destruct (Z.to_nat numfov) as [|n] eqn:E; [lia|].
  cbn [for_from]. rops. rewrite fov_body_zero.
  change (0 + 1)%Z with (Z.of_nat 1).
  change (term 0) with (sum_f_R0 term 0). change (dterm 0) with (sum_f_R0 dterm 0).
  rewrite fov_loop_from. cbn [Nat.add].
  replace (S n - 1)%nat with n by lia. rewrite !Rplus_0_l. reflexivity.
Qed.
(** X1: with at least one coefficient, the FOV loop of [calcthetadotdot]
    leaves in [fovval] the polynomial [fov[0] + fov[1]*kr + ... +
    fov[numfov-1]*kr^(numfov-1)] and in [dfovdrval] the sum of the
    [i*fov[i]*kr^(i-1)], both accumulated from the lowest degree up. *)
Theorem fov_eval_polynomial numfov :
  (1 <= numfov)%Z ->
  fst (fov_eval fov numfov kr)
    = sum_f_R0 (fun i => nth i fov 0 * kr ^ i) (Z.to_nat numfov - 1) /\
  snd (fov_eval fov numfov kr)
    = sum_f_R0 (fun i => INR i * nth i fov 0 * kr ^ pred i)
               (Z.to_nat numfov - 1).
Proof.
  intros Hn. rewrite (fov_eval_sums Hn). split; reflexivity.
Qed.

End FovR.

Lemma derivable_sum_f_R0 (f df : nat -> R -> R) (x : R) :
  (forall i, derivable_pt_lim (f i) x (df i x)) ->
  forall n, derivable_pt_lim (fun y => sum_f_R0 (fun i => f i y) n) x
                             (sum_f_R0 (fun i => df i x) n).
Proof.
  intros H; induction n as [|n IH]; simpl.
  - apply H.
  - apply (derivable_pt_lim_plus (fun y => sum_f_R0 (fun i => f i y) n) (f (S n))).
    + exact IH.
    + apply H.
Qed.

Lemma derivable_fov_term (c : R) (i : nat) (x : R) :
  derivable_pt_lim (fun y => c * y ^ i) x (INR i * c * x ^ pred i).
Proof.
  replace (INR i * c * x ^ pred i) with (c * (INR i * x ^ pred i)) by ring.
  apply (derivable_pt_lim_scal (fun y => y ^ i)). apply derivable_pt_lim_pow.
Qed.

Lemma derivable_pt_lim_ext (f g : R -> R) (x l : R) :
  (forall y, f y = g y) -> derivable_pt_lim f x l -> derivable_pt_lim g x l.
Proof.
  intros E H eps Heps. destruct (H eps Heps) as [delta Hd].
  exists delta. intros h Hh0 Hh. rewrite <- !E. now apply Hd.
Qed.

(** X2: [dfovdrval] is the derivative of [fovval] with respect to [kr]:
    the second result of the FOV loop is the derivative, at [kr], of the
    function that maps a radius to the first result, for every coefficient
    array and every [numfov]. *)
Theorem fov_eval_derivative (fov : list R) (numfov : Z) (kr : R) :
  derivable_pt_lim (fun x => fst (fov_eval fov numfov x)) kr
                   (snd (fov_eval fov numfov kr)).
Proof.
  destruct (Z_lt_le_dec numfov 1) as [Hn|Hn].
  - rewrite fov_eval_no_coefficient by lia. cbn [snd]. rops.
    apply (@derivable_pt_lim_ext (fct_cte 0) _ _ _).
    + intros x. now rewrite fov_eval_no_coefficient by lia.
    + apply derivable_pt_lim_const.
  - rewrite fov_eval_sums by exact Hn. cbn [snd].
    apply (@derivable_pt_lim_ext
             (fun x => sum_f_R0 (fun i => nth i fov 0 * x ^ i)
                                (Z.to_nat numfov - 1)) _ _ _).
    + intros x. now rewrite fov_eval_sums by exact Hn.
    + apply (@derivable_sum_f_R0 (fun i y => nth i fov 0 * y ^ i)
               (fun i y => INR i * nth i fov 0 * y ^ pred i)).
      intros i. apply derivable_fov_term.
Qed.

(** ** Limits kept by the solver *)


Section SolverBounds.
Variables (slewmax gradmax kr krdot Tgsample Tdsample : R) (Ninterleaves : Z).
Variables (fov : list R) (numfov : Z).

Lemma gradmax_clamped_bounds (g fovval Td : R) :
  0 <= g -> 0 < fovval -> 0 < Td ->
  0 <= gradmax_clamped g fovval Td <= g /\
  gradmax_clamped g fovval Td * fovval * Td <= 1 / 4258.
Proof.
  intros Hg Hf HT. unfold gradmax_clamped, gmaxfov_of. rewrite GAMMA_R. rops.
  assert (Hq : 1 / 4258 / fovval / Td * fovval * Td = 1 / 4258) by (field; lra).
  assert (Hpos : 0 < 1 / 4258 / fovval / Td).
  { apply Rdiv_lt_0_compat; [|exact HT].
    apply Rdiv_lt_0_compat; [lra|exact Hf]. }
  unfold R_lt. destruct (Rlt_dec (1 / 4258 / fovval / Td) g) as [H|H].
  - split; [lra|]. lra.
  - split; [lra|]. rewrite <- Hq.
    assert (g <= 1 / 4258 / fovval / Td) by lra.
    assert (0 < fovval * Td) by nra.
    rewrite !Rmult_assoc. apply Rmult_le_compat_r; lra.
Qed.

Lemma sqrt_quotient_le (x q : R) : 0 <= x -> sqrt (x * x / (1 + q * q)) <= x.
Proof.
  intros Hx. rewrite <- (sqrt_square x Hx) at 3.
  apply sqrt_le_1_alt.
  assert (H1 : 1 <= 1 + q * q) by nra.
  assert (H2 : 0 <= x * x) by nra.
  unfold Rdiv. rewrite <- (Rmult_1_r (x * x)) at 2.
  apply Rmult_le_compat_l; [exact H2|].
  rewrite <- Rinv_1. apply Rinv_le_contravar; lra.
Qed.

Lemma ctdd_maxkrdot_bounds :
  0 <= gradmax -> 0 < fst (fov_eval fov numfov kr) -> 0 < Tdsample ->
  Ninterleaves <> 0%Z ->
  let maxkrdot := ctdd_maxkrdot gradmax kr Tdsample Ninterleaves fov numfov in
  0 <= maxkrdot /\
  maxkrdot <= 4258 * gradmax /\
  maxkrdot * fst (fov_eval fov numfov kr) * Tdsample <= 1.
Proof.
  intros Hg Hf HT _ maxkrdot. unfold maxkrdot, ctdd_maxkrdot.
  destruct (fov_eval fov numfov kr) as [fovval dfovdrval]. cbn [fst] in *.
  destruct (gradmax_clamped_bounds Hg Hf HT) as [[Hc0 Hc1] Hc2].
  set (c := gradmax_clamped gradmax fovval Tdsample) in *.
  unfold maxkrdot_of. rewrite GAMMA_R. rops. rewrite !powerRZ_2.
  set (q := 2 * PI * fovval * kr / IZR Ninterleaves).
  assert (Hle : sqrt (4258 * c * (4258 * c) / (1 + q * q)) <= 4258 * c)
    by (apply sqrt_quotient_le; lra).
  split; [apply sqrt_pos|]. split; [lra|].
  assert (0 < fovval * Tdsample) by nra.
  assert (4258 * c * (fovval * Tdsample) <= 1) by nra.
  pose proof (sqrt_pos (4258 * c * (4258 * c) / (1 + q * q))).
  nra.
Qed.
(** X4: with a gradient limit that is not negative, a positive FOV and a
    positive data period, the radial velocity limit [maxkrdot] computed by
    [calcthetadotdot] lies between 0 and [GAMMA*gradmax], and it moves the
    radius by at most [1/FOV] per data sample
    ([maxkrdot * fovval * Tdsample <= 1]). *)
Theorem maxkrdot_within_limits :
  0 <= gradmax -> 0 < fst (fov_eval fov numfov kr) -> 0 < Tdsample ->
  Ninterleaves <> 0%Z ->
  0 <= ctdd_maxkrdot gradmax kr Tdsample Ninterleaves fov numfov
    <= 4258 * gradmax /\
  ctdd_maxkrdot gradmax kr Tdsample Ninterleaves fov numfov
    * fst (fov_eval fov numfov kr) * Tdsample <= 1.
Proof.
  intros Hg Hf HT HN.
  destruct (ctdd_maxkrdot_bounds Hg Hf HT HN) as (H0 & H1 & H2).
  repeat split; assumption.
Qed.

End SolverBounds.

Section SolverMore.
Variables (slewmax gradmax Tgsample Tdsample : R) (Ninterleaves : Z).
Variables (fov : list R) (numfov : Z).

(** X5: an iteration of the integration loop that finds [krdot] above
    [maxkrdot] (with positive periods and FOV and a gradient limit that is
    not negative) stores a negative [krdotdot] and brings [krdot] down to
    a value that is not negative, below the previous one, at most
    [GAMMA*gradmax], and within [1/FOV] per data sample. *)
Theorem amplitude_step_within_limits s :
  0 < Tgsample -> 0 <= gradmax ->
  0 < fst (fov_eval fov numfov (kr s)) -> 0 < Tdsample ->
  Ninterleaves <> 0%Z ->
  ctdd_maxkrdot gradmax (kr s) Tdsample Ninterleaves fov numfov < krdot s ->
  let s' := count_body slewmax gradmax Tgsample Tdsample Ninterleaves
                       fov numfov s in
  krdotdot s' < 0 /\
  0 <= krdot s' < krdot s /\
  krdot s' <= 4258 * gradmax /\
  krdot s' * fst (fov_eval fov numfov (kr s)) * Tdsample <= 1.
Proof.
  intros HT Hg Hf HTd HN Hamp s'.
  destruct (@ctdd_maxkrdot_bounds gradmax (kr s) Tdsample Ninterleaves
              fov numfov Hg Hf HTd HN) as (H0 & H1 & H2).
  set (m := ctdd_maxkrdot gradmax (kr s) Tdsample Ninterleaves fov numfov) in *.
  assert (Ek : krdotdot s' = (m - krdot s) / Tgsample).
  { unfold s', count_body.
    pose proof (@calcthetadotdot_amplitude R _ slewmax gradmax (kr s) (krdot s)
                  Tgsample Tdsample Ninterleaves fov numfov
                  (R_lt_true Hamp)) as E.
    destruct calcthetadotdot as [tdd krdd]. cbn [snd] in E. cbn [krdotdot].
    exact E. }
  assert (Ed : krdot s' = krdot s + krdotdot s' * Tgsample).
  { unfold s', count_body. destruct calcthetadotdot as [tdd krdd]. reflexivity. }
  assert (Em : krdot s' = m).
  { rewrite Ed, Ek. field. lra. }
  split.
  - rewrite Ek. unfold Rdiv.
    assert (0 < / Tgsample) by (apply Rinv_0_lt_compat; exact HT). nra.
  - rewrite Em. repeat split; lra.
Qed.

(** X6: [calcthetadotdot] depends on [slewmax] through its square only:
    the opposite slew rate gives the same two derivatives, in every
    state. *)
Theorem calcthetadotdot_slewmax_sign kr krdot :
  calcthetadotdot (- slewmax) gradmax kr krdot Tgsample Tdsample
                  Ninterleaves fov numfov
  = calcthetadotdot slewmax gradmax kr krdot Tgsample Tdsample
                    Ninterleaves fov numfov.
Proof.
  assert (Hq : forall tpf tpfsq fovval dfovdrval : R,
    qdfC_of (- slewmax) tpf tpfsq fovval dfovdrval kr krdot
    = qdfC_of slewmax tpf tpfsq fovval dfovdrval kr krdot).
  { intros. unfold qdfC_of. rops. rewrite !powerRZ_2. ring. }
  unfold calcthetadotdot, slew_krdotdot.
  destruct (fov_eval fov numfov kr) as [fovval dfovdrval].
  rewrite Hq. reflexivity.
Qed.

(** X7: from [kr = 0], [krdot = 0] (and where the divisors of the source
    are not zero) the solver is never amplitude-limited: whatever
    [gradmax] and the periods are, it returns
    [krdotdot = GAMMA*|slewmax|] and
    [thetadotdot = (2*PI*FOV(0)/Ninterleaves) * GAMMA*|slewmax|]. *)
Theorem calcthetadotdot_from_rest :
  fst (fov_eval fov numfov 0) <> 0 -> Tdsample <> 0 -> Ninterleaves <> 0%Z ->
  calcthetadotdot slewmax gradmax 0 0 Tgsample Tdsample Ninterleaves fov numfov
  = (2 * 3.141592 * fst (fov_eval fov numfov 0) / IZR Ninterleaves
       * (4258 * Rabs slewmax),
     4258 * Rabs slewmax).
Proof.
  intros _ _ _.
  rewrite (surjective_pairing (calcthetadotdot _ _ _ _ _ _ _ _ _)).
  rewrite calcthetadotdot_thetadotdot, calcthetadotdot_at_rest.
  destruct (fov_eval fov numfov 0) as [fovval dfovdrval]. cbn [fst].
  unfold tpf_of. rewrite PI_R. rops.
  rewrite Rabs_mult, (Rabs_pos_eq 4258) by lra.
  f_equal. unfold Rdiv. ring.
Qed.
End SolverMore.

(** ** The run of [calc_vds] as iterations *)

Section WhileIter.
Context {St : Type}.
Variables (cond : St -> bool) (body : St -> St).

(** A loop that returns has run its body some number of times, the test
    holding before each run. *)
Lemma while_loop_iter fuel : forall s r,
  while_loop cond body fuel s = Some r ->
  exists n, r = Nat.iter n body s /\
            forall k, (k < n)%nat -> cond (Nat.iter k body s) = true.
Proof.
  induction fuel as [|fuel IH]; intros s r; simpl;
    destruct (cond s) eqn:E; try discriminate.
  - intros [= <-]. exists 0%nat. split; [reflexivity|]. intros k Hk; lia.
  - intros H. apply IH in H as (n & Hr & Hc). exists (S n). split.
    + rewrite Nat.iter_succ_r. exact Hr.
    + intros [|k] Hk; [exact E|].
      rewrite Nat.iter_succ_r. apply Hc. lia.
  - intros [= <-]. exists 0%nat. split; [reflexivity|]. intros k Hk; lia.
Qed.
End WhileIter.

Section IterP.
Context {D : Type} {ops : DoubleOps D}.
Variables (slewmax gradmax Tgsample Tdsample : D) (Ninterleaves : Z).
Variables (fov : list D) (numfov : Z) (krmax : D) (ngmax : Z).
Local Abbreviation count_body' :=
  (count_body slewmax gradmax Tgsample Tdsample Ninterleaves fov numfov).
Local Abbreviation fill_body' :=
  (fill_body slewmax gradmax Tgsample Tdsample Ninterleaves fov numfov).

Lemma same_orbit_iter n : forall a b,
  same_orbit a b ->
  same_orbit (Nat.iter n count_body' a) (Nat.iter n fill_body' b).
Proof.
  induction n as [|n IH]; intros a b H; simpl; [exact H|].
  apply same_orbit_step. apply IH. exact H.
Qed.

Lemma count_iter_gradcount n s :
  gradcount (Nat.iter n count_body' s) = (gradcount s + Z.of_nat n)%Z.
Proof.
  induction n as [|n IH]; [simpl; lia|].
  cbn [Nat.iter nat_rect]. change (nat_rect _ s (fun _ => count_body') n) with (Nat.iter n count_body' s).
  rewrite count_body_gradcount, IH. lia.
Qed.

Lemma traj_pos_prefix (T : D) (l l' : list D) j :
  (j <= length l)%nat -> traj_pos T (l ++ l') j = traj_pos T l j.
Proof.
  induction j as [|j IH]; intros Hj; simpl; [reflexivity|].
  rewrite IH by lia. unfold aref. rewrite Nat2Z.id.
  rewrite app_nth1 by lia. reflexivity.
Qed.

Lemma fill_iter_extends n : forall m s,
  exists lx ly,
    gxptr (Nat.iter (n + m) fill_body' s) = gxptr (Nat.iter n fill_body' s) ++ lx /\
    gyptr (Nat.iter (n + m) fill_body' s) = gyptr (Nat.iter n fill_body' s) ++ ly.
Proof.
  intros m s. induction m as [|m IH].
  - exists [], []. now rewrite Nat.add_0_r, !app_nil_r.
  - destruct IH as (lx & ly & Hx & Hy).
    replace (n + S m)%nat with (S (n + m)) by lia.
    cbn [Nat.iter nat_rect].
    change (nat_rect _ s (fun _ => fill_body') (n + m)) with (Nat.iter (n + m) fill_body' s).
    destruct (fill_body_sample slewmax gradmax Tgsample Tdsample Ninterleaves
                fov numfov (Nat.iter (n + m) fill_body' s)) as (Ex & Ey).
    rewrite Ex, Ey, Hx, Hy, <- !app_assoc. eauto.
Qed.
End IterP.

Section FillFields.
Context {D : Type} {ops : DoubleOps D}.
Local Open Scope double_scope.
Variables (slewmax gradmax Tgsample Tdsample : D) (Ninterleaves : Z).
Variables (fov : list D) (numfov : Z).
Local Abbreviation fill_body' :=
  (fill_body slewmax gradmax Tgsample Tdsample Ninterleaves fov numfov).

Lemma fill_body_position s :
  let s' := fill_body' s in
  lastkx s' = kr s' * dcos (theta s') /\
  lastky s' = kr s' * dsin (theta s') /\
  gxptr s' = gxptr s ++ [(dofZ 1 / GAMMA / Tgsample) * (lastkx s' - lastkx s)] /\
  gyptr s' = gyptr s ++ [(dofZ 1 / GAMMA / Tgsample) * (lastky s' - lastky s)].
Proof.
  unfold fill_body. destruct calcthetadotdot as [tdd krdd]. simpl.
  repeat split.
Qed.
Local Close Scope double_scope.

End FillFields.


Section Positions.
Variables (slewmax gradmax Tgsample Tdsample : R) (Ninterleaves : Z).
Variables (fov : list R) (numfov : Z).
Local Abbreviation fill_body' :=
  (fill_body slewmax gradmax Tgsample Tdsample Ninterleaves fov numfov).
Local Abbreviation count_body' :=
  (count_body slewmax gradmax Tgsample Tdsample Ninterleaves fov numfov).

Hypothesis HT : Tgsample <> 0.

Lemma fill_iter_positions s0 :
  gxptr s0 = [] -> gyptr s0 = [] -> lastkx s0 = 0 -> lastky s0 = 0 ->
  forall n, let sn := Nat.iter n fill_body' s0 in
  length (gxptr sn) = n /\ length (gyptr sn) = n /\
  traj_pos Tgsample (gxptr sn) n = lastkx sn /\
  traj_pos Tgsample (gyptr sn) n = lastky sn /\
  ((1 <= n)%nat -> lastkx sn = kr sn * cos (theta sn) /\
                   lastky sn = kr sn * sin (theta sn)).
Proof.
  intros Gx Gy Lx Ly. induction n as [|n IH].
  - simpl. rewrite Gx, Gy, Lx, Ly. repeat split; try reflexivity; lia.
  - destruct IH as (Hlx & Hly & Hpx & Hpy & _).
    cbn zeta. cbn [Nat.iter nat_rect].
    change (nat_rect _ s0 (fun _ => fill_body') n) with (Nat.iter n fill_body' s0).
    set (sn := Nat.iter n fill_body' s0) in *.
    destruct (fill_body_position slewmax gradmax Tgsample Tdsample
                Ninterleaves fov numfov sn) as (Kx & Ky & Ex & Ey).
    set (s' := fill_body' sn) in *.
    rewrite Ex, Ey, !length_app, Hlx, Hly. cbn [length].
    split; [lia|]. split; [lia|].
    assert (P : forall (l : list R) (g last : R), length l = n ->
              traj_pos Tgsample l n = last ->
              forall new, g = (1 / 4258 / Tgsample) * (new - last) ->
              traj_pos Tgsample (l ++ [g]) (S n) = new).
    { intros l g last Hl Hp new Hg. cbn [traj_pos].
      rewrite traj_pos_prefix by lia. rewrite Hp.
      unfold aref. rewrite Nat2Z.id, app_nth2 by lia.
      rewrite Hl, Nat.sub_diag. cbn [nth]. rewrite GAMMA_R. rops.
      rewrite Hg. field. exact HT. }
    split; [apply (P _ _ _ Hlx Hpx); rops; now rewrite GAMMA_R|].
    split; [apply (P _ _ _ Hly Hpy); rops; now rewrite GAMMA_R|].
    intros _. rops. split; assumption.
Qed.
End Positions.

Section RunP.
Context {D : Type} {ops : DoubleOps D}.
Variables (slewmax gradmax Tgsample Tdsample : D) (Ninterleaves : Z).
Variables (fov : list D) (numfov : Z) (krmax : D) (ngmax : Z).
Local Abbreviation count_body' :=
  (count_body slewmax gradmax Tgsample Tdsample Ninterleaves fov numfov).
Local Abbreviation fill_body' :=
  (fill_body slewmax gradmax Tgsample Tdsample Ninterleaves fov numfov).
Local Abbreviation cond := (vds_cond krmax ngmax).

(** The run of [calc_vds] as a number [n] of iterations of each body. *)
Lemma calc_vds_run fuel :
  (Z.to_nat ngmax <= fuel)%nat ->
  exists n s1,
    count_pass slewmax gradmax Tgsample Tdsample Ninterleaves
               fov numfov krmax ngmax fuel = Some s1 /\
    s1 = Nat.iter n count_body' vds_init /\
    cond s1 = false /\
    (forall k, (k < n)%nat -> cond (Nat.iter k count_body' vds_init) = true) /\
    calc_vds slewmax gradmax Tgsample Tdsample Ninterleaves
             fov numfov krmax ngmax fuel
    = Some (mk_vds_result (Z.of_nat n)
              (gxptr (Nat.iter n fill_body' (vds_reset s1)))
              (gyptr (Nat.iter n fill_body' (vds_reset s1)))) /\
    lastkx s1 = dofZ 0 /\ lastky s1 = dofZ 0.
Proof.
  intros Hf.
  destruct (@calc_vds_total D _ slewmax gradmax Tgsample Tdsample Ninterleaves
              fov numfov krmax ngmax fuel Hf)
    as (s1 & s2 & H1 & H2 & Hr & Ho & _).
  destruct (while_loop_iter _ _ _ _ H1) as (n & E1 & Hc).
  destruct (while_loop_iter _ _ _ _ H2) as (m & E2 & _).
  assert (G1 : gradcount s1 = Z.of_nat n).
  { rewrite E1, count_iter_gradcount. reflexivity. }
  assert (G2 : gradcount s2 = Z.of_nat m).
  { pose proof (same_orbit_iter slewmax gradmax Tgsample Tdsample Ninterleaves
                  fov numfov m (same_orbit_reset s1)) as (Hg & _).
    rewrite E2, <- Hg, count_iter_gradcount. reflexivity. }
  assert (Enm : m = n) by (destruct Ho as (Hg & _); lia).
  subst m. exists n, s1.
  split; [exact H1|]. split; [exact E1|].
  split; [exact (while_loop_exit _ _ _ _ H1)|].
  split; [exact Hc|]. split.
  - rewrite Hr, G1, E2. reflexivity.
  - exact (count_pass_keeps_last _ _ _ _ _ _ _ _ _ _ H1).
Qed.
End RunP.


Section Pipeline.
Variables (slewmax gradmax Tgsample Tdsample : R) (Ninterleaves : Z).
Variables (fov : list R) (numfov : Z) (krmax : R) (ngmax : Z).
Local Abbreviation count_body' :=
  (count_body slewmax gradmax Tgsample Tdsample Ninterleaves fov numfov).
Local Abbreviation fill_body' :=
  (fill_body slewmax gradmax Tgsample Tdsample Ninterleaves fov numfov).
Local Abbreviation cond := (vds_cond krmax ngmax).

(** Integrating the first [j] samples of the returned waveform, as
    [calc_traj] does, gives the position [kr*(cos theta, sin theta)] of
    the spiral after [j] iterations. *)
Lemma calc_vds_positions fuel :
  Tgsample <> 0 -> (Z.to_nat ngmax <= fuel)%nat ->
  exists r,
    calc_vds slewmax gradmax Tgsample Tdsample Ninterleaves
             fov numfov krmax ngmax fuel = Some r /\
    forall j, (1 <= j <= Z.to_nat (numgrad r))%nat ->
      let s := Nat.iter j count_body' vds_init in
      traj_pos Tgsample (xgrad r) j = kr s * cos (theta s) /\
      traj_pos Tgsample (ygrad r) j = kr s * sin (theta s).
Proof.
  intros HT Hf.
  destruct (@calc_vds_run R _ slewmax gradmax Tgsample Tdsample Ninterleaves
              fov numfov krmax ngmax fuel Hf)
    as (n & s1 & _ & _ & _ & _ & Hr & Lx & Ly).
  eexists. split; [exact Hr|]. cbn [numgrad xgrad ygrad].
  rewrite Nat2Z.id. intros j [Hj1 Hjn].
  destruct (fill_iter_extends slewmax gradmax Tgsample Tdsample Ninterleaves
              fov numfov j (n - j) (vds_reset s1)) as (lx & ly & Ex & Ey).
  replace (j + (n - j))%nat with n in Ex, Ey by lia.
  destruct (@fill_iter_positions slewmax gradmax Tgsample Tdsample Ninterleaves
              fov numfov HT (vds_reset s1) eq_refl eq_refl Lx Ly j)
    as (Hlx & Hly & Hpx & Hpy & Hk).
  destruct (Hk Hj1) as (Kx & Ky).
  destruct (same_orbit_iter slewmax gradmax Tgsample Tdsample Ninterleaves
              fov numfov j (same_orbit_reset s1)) as (_ & Sk & _ & St & _).
  rewrite Ex, Ey, !traj_pos_prefix by lia.
  rewrite Hpx, Hpy, Kx, Ky. rewrite Sk, St. split; reflexivity.
Qed.

(** X9: where the divisors of the source are not zero (the gradient and
    data periods, the number of interleaves, and the FOV at every radius
    at which the loop test is evaluated), when [calc_vds], called with
    [krmax > 0], returns fewer than [ngmax] samples, the integration has
    reached the target: the last radius is at least [krmax], and the
    position obtained by summing [GAMMA*g*Tgsample] over the whole
    returned waveform is at distance at least [krmax] from the origin. *)
Theorem calc_vds_reaches_krmax fuel :
  Tgsample <> 0 -> Tdsample <> 0 -> Ninterleaves <> 0%Z ->
  Forall (fun x => fst (fov_eval fov numfov x) <> 0)
         (kr_visited slewmax gradmax Tgsample Tdsample Ninterleaves
                     fov numfov krmax ngmax fuel) ->
  0 < krmax -> (Z.to_nat ngmax <= fuel)%nat ->
  exists r,
    calc_vds slewmax gradmax Tgsample Tdsample Ninterleaves
             fov numfov krmax ngmax fuel = Some r /\
    ((numgrad r < ngmax)%Z ->
       let n := Z.to_nat (numgrad r) in
       krmax <= kr (Nat.iter n count_body' vds_init) /\
       krmax * krmax <=
         traj_pos Tgsample (xgrad r) n * traj_pos Tgsample (xgrad r) n +
         traj_pos Tgsample (ygrad r) n * traj_pos Tgsample (ygrad r) n).
Proof.
  intros HT _ _ _ Hk Hf.
  destruct (calc_vds_positions HT Hf) as (r & Hr & Hpos).
  destruct (@calc_vds_run R _ slewmax gradmax Tgsample Tdsample Ninterleaves
              fov numfov krmax ngmax fuel Hf)
    as (n & s1 & _ & E1 & Hc & Hbefore & Hr' & _).
  exists r. split; [exact Hr|]. intros Hlt m.
  rewrite Hr in Hr'. injection Hr' as ->. cbn [numgrad] in *.
  unfold m in *. rewrite Nat2Z.id in *. clear m.
  assert (Hkr : krmax <= kr (Nat.iter n count_body' vds_init)).
  { rewrite <- E1. unfold vds_cond in Hc. apply andb_false_iff in Hc as [Hc|Hc].
    - apply R_lt_false_inv. exact Hc.
    - apply Z.ltb_ge in Hc. rewrite E1, count_iter_gradcount in Hc.
      cbn [gradcount vds_init] in Hc. lia. }
  split; [exact Hkr|].
  assert (Hn : (1 <= n)%nat).
  { destruct n as [|n]; [|lia]. simpl in Hkr. rops. lra. }
  destruct (Hpos n (conj Hn (Nat.le_refl _))) as (Px & Py).
  cbn zeta in Px, Py. rewrite Px, Py.
  set (s := Nat.iter n count_body' vds_init) in *.
  pose proof (sin2_cos2 (theta s)) as H. unfold Rsqr in H.
  assert (krmax * krmax <= kr s * kr s) by nra.
  nra.
Qed.
End Pipeline.

(** ** No slew rate *)


Section ZeroSlew.
Variables (gradmax Tgsample Tdsample : R) (Ninterleaves : Z).
Variables (fov : list R) (numfov : Z) (krmax : R) (ngmax : Z).
Local Abbreviation count_body' :=
  (count_body 0 gradmax Tgsample Tdsample Ninterleaves fov numfov).
Local Abbreviation fill_body' :=
  (fill_body 0 gradmax Tgsample Tdsample Ninterleaves fov numfov).

Lemma calcthetadotdot_no_slew :
  calcthetadotdot 0 gradmax 0 0 Tgsample Tdsample Ninterleaves fov numfov
  = (0, 0).
Proof.
  rewrite (surjective_pairing (calcthetadotdot _ _ _ _ _ _ _ _ _)).
  rewrite calcthetadotdot_thetadotdot, calcthetadotdot_at_rest.
  destruct (fov_eval fov numfov 0) as [fovval dfovdrval].
  rewrite Rmult_0_r, Rabs_R0. rops. f_equal. unfold Rdiv. ring.
Qed.

Lemma count_iter_no_slew n :
  let s := Nat.iter n count_body' vds_init in
  kr s = 0 /\ krdot s = 0.
Proof.
  induction n as [|n IH]; [split; reflexivity|].
  cbn zeta in *. destruct IH as [Hk Hd].
  change (Nat.iter (S n) count_body' vds_init)
    with (count_body' (Nat.iter n count_body' vds_init)).
  set (s := Nat.iter n count_body' vds_init) in *.
  destruct (count_body_fields 0 gradmax Tgsample Tdsample Ninterleaves
              fov numfov s) as (_ & Hkd & Hkk & _).
  rewrite Hkk, Hkd, Hk, Hd, calcthetadotdot_no_slew. rops. cbn [snd].
  split; ring.
Qed.

Lemma fill_iter_no_slew s0 n :
  kr s0 = 0 -> krdot s0 = 0 -> theta s0 = 0 -> thetadot s0 = 0 ->
  lastkx s0 = 0 -> lastky s0 = 0 -> gxptr s0 = [] -> gyptr s0 = [] ->
  let s := Nat.iter n fill_body' s0 in
  kr s = 0 /\ krdot s = 0 /\ theta s = 0 /\ thetadot s = 0 /\
  lastkx s = 0 /\ lastky s = 0 /\
  gxptr s = repeat 0 n /\ gyptr s = repeat 0 n.
Proof.
  intros H1 H2 H3 H4 H5 H6 H7 H8. induction n as [|n IH].
  - simpl. repeat split; assumption.
  - cbn zeta in *.
    destruct IH as (Hk & Hd & Ht & Htd & Lx & Ly & Gx & Gy).
    change (Nat.iter (S n) fill_body' s0)
      with (fill_body' (Nat.iter n fill_body' s0)).
    set (s := Nat.iter n fill_body' s0) in *.
    unfold fill_body. rewrite Hk, Hd, Ht, Htd, Lx, Ly, Gx, Gy.
    rewrite calcthetadotdot_no_slew.
    cbn [kr krdot theta thetadot lastkx lastky gxptr gyptr]. rops.
    replace (0 + (0 + 0 * Tgsample) * Tgsample) with 0 by ring.
    rewrite !Rmult_0_l, Rminus_diag, Rmult_0_r.
    replace (repeat 0 n ++ [0]) with (repeat 0 (S n)).
    + repeat split; ring.
    + change [0] with (repeat 0 1). rewrite <- repeat_app. f_equal. lia.
Qed.

(** X8: with a zero slew rate the spiral never leaves the origin, so for
    [krmax > 0] and [ngmax >= 0] (and non-zero divisors) the loop is cut
    by [ngmax] only: [calc_vds] returns exactly [ngmax] samples, all of
    them [(0, 0)]. *)
Theorem calc_vds_zero_slew fuel :
  0 < krmax -> (0 <= ngmax)%Z ->
  fst (fov_eval fov numfov 0) <> 0 -> Tgsample <> 0 -> Tdsample <> 0 ->
  Ninterleaves <> 0%Z ->
  (Z.to_nat ngmax <= fuel)%nat ->
  calc_vds 0 gradmax Tgsample Tdsample Ninterleaves fov numfov krmax ngmax fuel
  = Some (mk_vds_result ngmax (repeat 0 (Z.to_nat ngmax))
                        (repeat 0 (Z.to_nat ngmax))).
Proof.
  intros Hk Hn _ _ _ _ Hf.
  destruct (@calc_vds_run R _ 0 gradmax Tgsample Tdsample Ninterleaves
              fov numfov krmax ngmax fuel Hf)
    as (n & s1 & _ & E1 & Hc & Hbefore & Hr & Lx & Ly).
  assert (Hrest : forall k, vds_cond krmax ngmax (Nat.iter k count_body' vds_init)
                            = (Z.of_nat k <? ngmax)%Z).
  { intros k. unfold vds_cond.
    destruct (count_iter_no_slew k) as [Hk0 _]. cbn zeta in Hk0. rewrite Hk0.
    rewrite count_iter_gradcount. cbn [gradcount vds_init]. rops.
    rewrite R_lt_true by exact Hk. reflexivity. }
  assert (En : Z.of_nat n = ngmax).
  { rewrite E1, Hrest in Hc. apply Z.ltb_ge in Hc.
    destruct n as [|n]; [lia|].
    specialize (Hbefore n (Nat.lt_succ_diag_r n)). rewrite Hrest in Hbefore.
    apply Z.ltb_lt in Hbefore. lia. }
  rewrite Hr, En. 
  destruct (count_iter_no_slew n) as [K1 K2]. cbn zeta in K1, K2.
  assert (L0 : lastkx (vds_reset s1) = 0) by exact Lx.
  assert (L1 : lastky (vds_reset s1) = 0) by exact Ly.
  destruct (fill_iter_no_slew (vds_reset s1) n) as (_ & _ & _ & _ & _ & _ & Gx & Gy);
    try reflexivity; try assumption.
  cbn zeta in Gx, Gy. rewrite Gx, Gy.
  replace (Z.to_nat ngmax) with n by lia. reflexivity.
Qed.
End ZeroSlew.

(** ** [calc_traj] after [calc_vds] *)


Section Pipeline2.
Variables (slewmax gradmax Tgsample Tdsample : R) (Ninterleaves : Z).
Variables (fov : list R) (numfov : Z) (krmax : R) (ngmax : Z).
Local Abbreviation count_body' :=
  (count_body slewmax gradmax Tgsample Tdsample Ninterleaves fov numfov).

(** X10: [calc_traj] undoes the differencing of [calc_vds]: called on
    the waveform that [calc_vds] returns, with the same [Tgsample] and a
    non-zero [krmax], it stores for sample [j] of interleave 0
    ([1 <= j < numgrad]) the point [kr*(cos theta, sin theta)/krmax],
    where [kr] and [theta] are the radius and the angle of the spiral
    after [j] iterations of the integration. *)
Theorem calc_traj_of_calc_vds fuel :
  Tgsample <> 0 -> krmax <> 0 -> (1 <= Ninterleaves)%Z ->
  (Z.to_nat ngmax <= fuel)%nat ->
  exists r,
    calc_vds slewmax gradmax Tgsample Tdsample Ninterleaves
             fov numfov krmax ngmax fuel = Some r /\
    forall j, (1 <= j < numgrad r)%Z ->
      let s := Nat.iter (Z.to_nat j) count_body' vds_init in
      traj_point (calc_traj (xgrad r) (ygrad r) (numgrad r) Ninterleaves
                            Tgsample krmax) (numgrad r) 0 j
      = (kr s * cos (theta s) / krmax, kr s * sin (theta s) / krmax).
Proof.
  intros HT Hk HN Hf.
  destruct (@calc_vds_positions slewmax gradmax Tgsample Tdsample Ninterleaves
              fov numfov krmax ngmax fuel HT Hf) as (r & Hr & Hpos).
  exists r. split; [exact Hr|]. intros j Hj s. unfold traj_point.
  assert (H0 : (0 <= 0 < Ninterleaves)%Z) by lia.
  assert (Hj' : (0 <= j < numgrad r)%Z) by lia.
  destruct (calc_traj_at (xgrad r) (ygrad r) Tgsample krmax 0 H0 Hj')
    as (Ex & Ey & _).
  rewrite Ex, Ey. unfold tx_at, ty_at. rewrite rotation_of_R. rops.
  replace (2 * 3.141592 * 0 / IZR Ninterleaves) with 0 by (unfold Rdiv; ring).
  rewrite cos_0, sin_0.
  destruct (Hpos (Z.to_nat j)) as (Px & Py); [lia|].
  cbn zeta in Px, Py. rewrite Px, Py. fold s.
  f_equal; unfold Rdiv; ring.
Qed.
End Pipeline2.

(** ** More on [calc_traj] *)

Section TrajP.
Context {D : Type} {ops : DoubleOps D}.
Variables (xgrad ygrad : list D) (ngrad Nints : Z) (Tgsamp krmax : D).

(** X11: for [ngrad] and [Nints] not negative and their product an
    [int], so that the allocations of the source are made, [calc_traj]
    stores [Nints * ngrad] entries in each of its three buffers, in any
    arithmetic. *)
Theorem calc_traj_buffer_sizes :
  (0 <= ngrad)%Z -> (0 <= Nints)%Z -> (ngrad * Nints <= 2147483647)%Z ->
  let r := calc_traj xgrad ygrad ngrad Nints Tgsamp krmax in
  Z.of_nat (length (x_trajectory r)) = (Nints * ngrad)%Z /\
  Z.of_nat (length (y_trajectory r)) = (Nints * ngrad)%Z /\
  Z.of_nat (length (weights r)) = (Nints * ngrad)%Z.
Proof.
  intros Hg HN _ r.
  destruct (calc_traj_length xgrad ygrad ngrad Nints Tgsamp krmax)
    as (H1 & H2 & H3).
  unfold r. rewrite H1, H2, H3. repeat split; nia.
Qed.

(** X12: the weights do not depend on the interleave: in any arithmetic
    the weight stored for sample [j] of interleave [i] is the one stored
    for sample [j] of interleave 0. *)
Theorem calc_traj_weights_repeat i j d :
  (0 <= i < Nints)%Z -> (0 <= j < ngrad)%Z ->
  let r := calc_traj xgrad ygrad ngrad Nints Tgsamp krmax in
  nth (traj_index ngrad i j) (weights r) d
  = nth (traj_index ngrad 0 j) (weights r) d.
Proof.
  intros Hi Hj r.
  destruct (calc_traj_at xgrad ygrad Tgsamp krmax d Hi Hj) as (_ & _ & Hw).
  assert (H0 : (0 <= 0 < Nints)%Z) by lia.
  destruct (calc_traj_at xgrad ygrad Tgsamp krmax d H0 Hj) as (_ & _ & Hw0).
  unfold r. rewrite Hw, Hw0. reflexivity.
Qed.

(** X13: [calc_traj] reads the gradient samples [0] to [ngrad-1] only:
    whatever follows them in the two arrays does not change any of the
    three buffers, in any arithmetic. *)
Theorem calc_traj_reads_ngrad (ex ey : list D) :
  (ngrad <= Z.of_nat (length xgrad))%Z ->
  (ngrad <= Z.of_nat (length ygrad))%Z ->
  calc_traj (xgrad ++ ex) (ygrad ++ ey) ngrad Nints Tgsamp krmax
  = calc_traj xgrad ygrad ngrad Nints Tgsamp krmax.
Proof.
  intros Hx Hy. unfold calc_traj.
  assert (E : for_loop Nints (inter_body (xgrad ++ ex) (ygrad ++ ey) ngrad Nints Tgsamp krmax) traj_init
              = for_loop Nints (inter_body xgrad ygrad ngrad Nints Tgsamp krmax) traj_init).
  { unfold for_loop. apply for_from_ext. intros i s _.
    unfold inter_body, for_loop. apply for_from_ext. intros k s' Hk.
    unfold traj_body.
    rewrite !(aref_app xgrad ex (i:=k)), !(aref_app ygrad ey (i:=k)) by lia.
    destruct (0 <? k)%Z eqn:E0; [|reflexivity].
    apply Z.ltb_lt in E0.
    rewrite !(aref_app xgrad ex (i:=k-1)), !(aref_app ygrad ey (i:=k-1)) by lia.
    reflexivity. }
  rewrite E. reflexivity.
Qed.
End TrajP.


Lemma fold_sum_snoc (l : list R) (x : R) :
  fold_right Rplus 0 (l ++ [x]) = fold_right Rplus 0 l + x.
Proof. induction l as [|a l IH]; simpl; [ring|rewrite IH; ring]. Qed.

Lemma firstn_snoc (l : list R) : forall j,
  (j < length l)%nat -> firstn (S j) l = firstn j l ++ [nth j l 0].
Proof.
  induction l as [|a l IH]; intros j Hj; [simpl in Hj; lia|].
  destruct j as [|j]; [reflexivity|].
  simpl in Hj. cbn [firstn nth app]. f_equal.
  change (firstn (S j) l = firstn j l ++ [nth j l 0]). apply IH. lia.
Qed.

Lemma traj_pos_sum (T : R) (g : list R) j :
  (j <= length g)%nat ->
  traj_pos T g j = 4258 * T * fold_right Rplus 0 (firstn j g).
Proof.
  induction j as [|j IH]; intros Hj.
  - simpl. rops. ring.
  - cbn [traj_pos]. rewrite IH by lia. rewrite firstn_snoc by lia.
    rewrite fold_sum_snoc. unfold aref. rewrite Nat2Z.id, GAMMA_R. rops. ring.
Qed.

Section TrajR2.
Variables (xgrad ygrad : list R) (ngrad Nints : Z) (Tgsamp krmax : R).

(** X14: for interleave 0 (with a non-zero [krmax] and arrays of at
    least [ngrad] samples) the trajectory point of sample [j] is
    [GAMMA*Tgsamp/krmax] times the sum of the gradient samples [0] to
    [j-1]: the gradient integrated with a lag of one sample. *)
Theorem calc_traj_first_interleave j :
  krmax <> 0 -> (1 <= Nints)%Z -> (0 <= j < ngrad)%Z ->
  (ngrad <= Z.of_nat (length xgrad))%Z ->
  (ngrad <= Z.of_nat (length ygrad))%Z ->
  traj_point (calc_traj xgrad ygrad ngrad Nints Tgsamp krmax) ngrad 0 j
  = (4258 * Tgsamp * fold_right Rplus 0 (firstn (Z.to_nat j) xgrad) / krmax,
     4258 * Tgsamp * fold_right Rplus 0 (firstn (Z.to_nat j) ygrad) / krmax).
Proof.
  intros Hk HN Hj Hx Hy. unfold traj_point.
  assert (H0 : (0 <= 0 < Nints)%Z) by lia.
  destruct (calc_traj_at xgrad ygrad Tgsamp krmax 0 H0 Hj) as (Ex & Ey & _).
  rewrite Ex, Ey. unfold tx_at, ty_at. rewrite rotation_of_R. rops.
  replace (2 * 3.141592 * 0 / IZR Nints) with 0 by (unfold Rdiv; ring).
  rewrite cos_0, sin_0, !traj_pos_sum by lia.
  f_equal; unfold Rdiv; ring.
Qed.

(** X15: for a non-zero [krmax], the trajectory point of sample [j] is
    at the same distance from the origin in every interleave. *)
Theorem calc_traj_radius_repeat i j :
  krmax <> 0 -> (0 <= i < Nints)%Z -> (0 <= j < ngrad)%Z ->
  let r := calc_traj xgrad ygrad ngrad Nints Tgsamp krmax in
  let p := traj_point r ngrad i j in
  let p0 := traj_point r ngrad 0 j in
  fst p * fst p + snd p * snd p = fst p0 * fst p0 + snd p0 * snd p0.
Proof.
  intros Hk Hi Hj r p p0. unfold p, p0, traj_point, r. cbn [fst snd].
  destruct (calc_traj_at xgrad ygrad Tgsamp krmax 0 Hi Hj) as (Hx & Hy & _).
  assert (H0 : (0 <= 0 < Nints)%Z) by lia.
  destruct (calc_traj_at xgrad ygrad Tgsamp krmax 0 H0 Hj) as (Hx0 & Hy0 & _).
  rewrite Hx, Hy, Hx0, Hy0. unfold tx_at, ty_at. rops.
  set (X := traj_pos Tgsamp xgrad (Z.to_nat j)).
  set (Y := traj_pos Tgsamp ygrad (Z.to_nat j)).
  pose proof (sin2_cos2 (rotation_of Nints i)) as Hi2.
  pose proof (sin2_cos2 (rotation_of Nints 0)) as H02.
  unfold Rsqr in *.
  set (c := cos (rotation_of Nints i)) in *. set (s := sin (rotation_of Nints i)) in *.
  set (c0 := cos (rotation_of Nints 0)) in *. set (s0 := sin (rotation_of Nints 0)) in *.
  unfold Rdiv. set (q := / krmax).
  transitivity ((X * X + Y * Y) * (q * q) * (s * s + c * c)); [ring|].
  transitivity ((X * X + Y * Y) * (q * q) * (s0 * s0 + c0 * c0)); [|ring].
  rewrite Hi2, H02. reflexivity.
Qed.

(** X16: a weight never exceeds the magnitude of the gradient sample it
    belongs to, and the weight of a zero gradient sample is 0. *)
Theorem calc_traj_weight_bound i j :
  (0 <= i < Nints)%Z -> (0 <= j < ngrad)%Z ->
  let w := nth (traj_index ngrad i j)
               (weights (calc_traj xgrad ygrad ngrad Nints Tgsamp krmax)) 0 in
  let xg := aref xgrad j in
  let yg := aref ygrad j in
  w <= sqrt (xg * xg + yg * yg) /\ (xg = 0 -> yg = 0 -> w = 0).
Proof.
  intros Hi Hj w xg yg.
  destruct (calc_traj_at xgrad ygrad Tgsamp krmax 0 Hi Hj) as (_ & _ & Hw).
  unfold w. rewrite Hw. unfold w_at. rewrite Z2Nat.id by lia.
  fold xg yg. rewrite weight_of_R.
  set (a := sin _). pose proof (SIN_bound (ang_g_of xg yg - ang_t_of (traj_pos Tgsamp xgrad (Z.to_nat j)) (traj_pos Tgsamp ygrad (Z.to_nat j)))) as [Hl Hu].
  fold a in Hl, Hu.
  assert (Ha : Rabs a <= 1) by (apply Rabs_le; lra).
  pose proof (Rabs_pos a). pose proof (sqrt_pos (xg * xg + yg * yg)).
  split; [nra|].
  intros -> ->. replace (0 * 0 + 0 * 0) with 0 by ring. rewrite sqrt_0. ring.
Qed.
End TrajR2.

(** ** Instances *)

Lemma fov_eval_polynomial_witness :
  fst (fov_eval [24; 3; 2] 3 2)
    = sum_f_R0 (fun i => nth i [24; 3; 2] 0 * 2 ^ i) (Z.to_nat 3 - 1) /\
  snd (fov_eval [24; 3; 2] 3 2)
    = sum_f_R0 (fun i => INR i * nth i [24; 3; 2] 0 * 2 ^ pred i)
               (Z.to_nat 3 - 1).
Proof.
  apply (@fov_eval_polynomial [24; 3; 2] 2 3). lia.
Defined.

Lemma fov_eval_reads_numfov_witness :
  fov_eval ([24; 3] ++ [7]) 2 1 = fov_eval [24; 3] 2 1.
Proof.
  apply (@fov_eval_reads_numfov R R_double [24; 3] [7] 2 1). simpl. lia.
Defined.

Lemma maxkrdot_within_limits_witness :
  0 <= ctdd_maxkrdot 4 1 (4/1000000) 16 [24] 1 <= 4258 * 4 /\
  ctdd_maxkrdot 4 1 (4/1000000) 16 [24] 1
    * fst (fov_eval [24] 1 1) * (4/1000000) <= 1.
Proof.
  apply (@maxkrdot_within_limits 4 1 (4/1000000) 16 [24] 1).
  - lra.
  - rewrite fov_eval_const. simpl. lra.
  - lra.
  - discriminate.
Defined.

Lemma amplitude_step_within_limits_witness :
  let s := mk_vds_state 0 0 100000 0 0 0 0 0 0 [] [] in
  let s' := count_body 15000 4 (4/1000000) (4/1000000) 16 [24] 1 s in
  krdotdot s' < 0 /\
  0 <= krdot s' < krdot s /\
  krdot s' <= 4258 * 4 /\
  krdot s' * fst (fov_eval [24] 1 (kr s)) * (4/1000000) <= 1.
Proof.
  apply (@amplitude_step_within_limits 15000 4 (4/1000000) (4/1000000) 16
           [24] 1 (mk_vds_state 0 0 100000 0 0 0 0 0 0 [] [])).
  - lra.
  - lra.
  - cbn [kr]. rewrite fov_eval_const. simpl. lra.
  - lra.
  - discriminate.
  - cbn [kr krdot].
    assert (H : 0 < fst (fov_eval [24] 1 0))
      by (rewrite fov_eval_const; simpl; lra).
    destruct (@ctdd_maxkrdot_bounds 4 0 (4/1000000) 16 [24] 1) as (_ & Hm & _);
      [lra | exact H | lra | discriminate | lra].
Defined.

Lemma calcthetadotdot_from_rest_witness :
  calcthetadotdot 15000 4 0 0 (4/1000000) (4/1000000) 16 [24] 1
  = (2 * 3.141592 * fst (fov_eval [24] 1 0) / IZR 16 * (4258 * Rabs 15000),
     4258 * Rabs 15000).
Proof.
  apply (@calcthetadotdot_from_rest 15000 4 (4/1000000) (4/1000000) 16 [24] 1).
  - rewrite fov_eval_const. simpl. lra.
  - lra.
  - discriminate.
Defined.

Lemma calc_vds_zero_slew_witness :
  calc_vds 0 4 (4/1000000) (4/1000000) 16 [24] 1 5 3 3%nat
  = Some (mk_vds_result 3 (repeat 0 (Z.to_nat 3)) (repeat 0 (Z.to_nat 3))).
Proof.
  apply (@calc_vds_zero_slew 4 (4/1000000) (4/1000000) 16 [24] 1 5 3 3%nat).
  - lra.
  - lia.
  - rewrite fov_eval_const. simpl. lra.
  - lra.
  - lra.
  - discriminate.
  - simpl. lia.
Defined.

(** On the design of section [Backward] with [krmax = 1/2] the radius is
    1 after one iteration: one sample is returned, fewer than
    [ngmax = 5]. *)
Lemma short_run_numgrad r :
  calc_vds 4258 100 (1/4258) (1/1000000) 1 [1; 1] 2 (1/2) 5 5%nat = Some r ->
  numgrad r = 1%Z.
Proof.
  destruct backward_step1 as (Hg1 & _ & Hk1).
  unfold calc_vds, count_pass.
  rewrite while_loop_true
    by (unfold vds_cond; simpl; rops; rewrite R_lt_true by lra; reflexivity).
  rewrite while_loop_false
    by (unfold vds_cond; rewrite Hk1; rops; rewrite R_lt_false by lra;
        reflexivity).
  destruct (fill_pass _ _ _ _ _ _ _ _ _ _ _) as [s2|]; [|discriminate].
  intros [= <-]. exact Hg1.
Qed.

(** With [krmax = 5] and [ngmax = 2] it is cut after two iterations. *)
Lemma cut_run_numgrad r :
  calc_vds 4258 100 (1/4258) (1/1000000) 1 [1; 1] 2 5 2 2%nat = Some r ->
  numgrad r = 2%Z.
Proof.
  destruct backward_step1 as (Hg1 & _ & Hk1).
  destruct backward_step2 as (Hg2 & _).
  unfold calc_vds, count_pass.
  rewrite while_loop_true
    by (unfold vds_cond; simpl; rops; rewrite R_lt_true by lra; reflexivity).
  rewrite while_loop_true
    by (unfold vds_cond; rewrite Hg1, Hk1; rops; rewrite R_lt_true by lra;
        reflexivity).
  rewrite while_loop_false
    by (unfold vds_cond; rewrite Hg2; apply andb_false_r).
  destruct (fill_pass _ _ _ _ _ _ _ _ _ _ _) as [s2|]; [|discriminate].
  intros [= <-]. exact Hg2.
Qed.

(** The radii at which the loop test of that run is evaluated. *)
Lemma short_run_visited :
  kr_visited 4258 100 (1/4258) (1/1000000) 1 [1; 1] 2 (1/2) 5 5%nat = [0; 1].
Proof.
  destruct backward_step1 as (_ & _ & Hk1).
  unfold kr_visited.
  change (visited (vds_cond (1/2) 5)
            (count_body 4258 100 (1/4258) (1/1000000) 1 [1; 1] 2) 5 vds_init)
    with (vds_init (D:=R) ::
          (if vds_cond (1/2) 5 (vds_init (D:=R))
           then
             count_body 4258 100 (1/4258) (1/1000000) 1 [1; 1] 2 vds_init ::
             (if vds_cond (1/2) 5
                   (count_body 4258 100 (1/4258) (1/1000000) 1 [1; 1] 2
                               vds_init)
              then visited (vds_cond (1/2) 5)
                     (count_body 4258 100 (1/4258) (1/1000000) 1 [1; 1] 2) 3
                     (count_body 4258 100 (1/4258) (1/1000000) 1 [1; 1] 2
                        (count_body 4258 100 (1/4258) (1/1000000) 1 [1; 1] 2
                                    vds_init))
              else [])
           else [])).
  assert (C0 : vds_cond (1/2) 5 (vds_init (D:=R)) = true)
    by (unfold vds_cond; simpl; rops; rewrite R_lt_true by lra; reflexivity).
  assert (C1 : vds_cond (1/2) 5
                 (count_body 4258 100 (1/4258) (1/1000000) 1 [1; 1] 2 vds_init)
               = false)
    by (unfold vds_cond; rewrite Hk1; rops; rewrite R_lt_false by lra;
        reflexivity).
  rewrite C0, C1. cbn [map]. rewrite Hk1. reflexivity.
Qed.

Lemma calc_vds_reaches_krmax_witness :
  exists r,
    calc_vds 4258 100 (1/4258) (1/1000000) 1 [1; 1] 2 (1/2) 5 5%nat = Some r /\
    numgrad r = 1%Z /\
    1/2 <= kr (Nat.iter 1 (count_body 4258 100 (1/4258) (1/1000000) 1 [1; 1] 2)
                 vds_init) /\
    1/2 * (1/2) <=
      traj_pos (1/4258) (xgrad r) 1 * traj_pos (1/4258) (xgrad r) 1 +
      traj_pos (1/4258) (ygrad r) 1 * traj_pos (1/4258) (ygrad r) 1.
Proof.
  destruct (@calc_vds_reaches_krmax 4258 100 (1/4258) (1/1000000) 1 [1; 1] 2
              (1/2) 5 5%nat) as (r & Hr & H).
  - lra.
  - lra.
  - discriminate.
  - rewrite short_run_visited.
    repeat constructor; rewrite fov_eval_linear; simpl; lra.
  - lra.
  - simpl. lia.
  - pose proof (short_run_numgrad Hr) as Hn. rewrite Hn in H.
    exists r. split; [exact Hr|]. split; [exact Hn|].
    apply H. lia.
Defined.

Lemma calc_traj_of_calc_vds_witness :
  exists r,
    calc_vds 4258 100 (1/4258) (1/1000000) 1 [1; 1] 2 5 2 2%nat = Some r /\
    numgrad r = 2%Z /\
    let s := Nat.iter 1 (count_body 4258 100 (1/4258) (1/1000000) 1 [1; 1] 2)
               vds_init in
    traj_point (calc_traj (xgrad r) (ygrad r) 2 1 (1/4258) 5) 2 0 1
    = (kr s * cos (theta s) / 5, kr s * sin (theta s) / 5).
Proof.
  destruct (@calc_traj_of_calc_vds 4258 100 (1/4258) (1/1000000) 1 [1; 1] 2
              5 2 2%nat) as (r & Hr & H).
  - lra.
  - lra.
  - lia.
  - simpl. lia.
  - pose proof (cut_run_numgrad Hr) as Hn. rewrite Hn in H.
    exists r. split; [exact Hr|]. split; [exact Hn|].
    apply (H 1%Z). lia.
Defined.

Lemma calc_traj_weights_repeat_witness :
  let r := calc_traj [0; 3] [-1; 4] 2 2 (4/1000000) 5 in
  nth (traj_index 2 1 1) (weights r) 0 = nth (traj_index 2 0 1) (weights r) 0.
Proof.
  apply (@calc_traj_weights_repeat R R_double [0; 3] [-1; 4] 2 2 (4/1000000) 5
           1 1 0); lia.
Defined.

Lemma calc_traj_reads_ngrad_witness :
  calc_traj ([0; 3] ++ [8]) ([-1; 4] ++ [9]) 2 2 (4/1000000) 5
  = calc_traj [0; 3] [-1; 4] 2 2 (4/1000000) 5.
Proof.
  apply (@calc_traj_reads_ngrad R R_double [0; 3] [-1; 4] 2 2 (4/1000000) 5
           [8] [9]); simpl; lia.
Defined.

Lemma calc_traj_first_interleave_witness :
  traj_point (calc_traj [0; 3] [-1; 4] 2 2 (4/1000000) 5) 2 0 1
  = (4258 * (4/1000000) * fold_right Rplus 0 (firstn (Z.to_nat 1) [0; 3]) / 5,
     4258 * (4/1000000) * fold_right Rplus 0 (firstn (Z.to_nat 1) [-1; 4]) / 5).
Proof.
  apply (@calc_traj_first_interleave [0; 3] [-1; 4] 2 2 (4/1000000) 5 1);
    try lra; simpl; lia.
Defined.

Lemma calc_traj_radius_repeat_witness :
  let r := calc_traj [0; 3] [-1; 4] 2 2 (4/1000000) 5 in
  let p := traj_point r 2 1 1 in
  let p0 := traj_point r 2 0 1 in
  fst p * fst p + snd p * snd p = fst p0 * fst p0 + snd p0 * snd p0.
Proof.
  apply (@calc_traj_radius_repeat [0; 3] [-1; 4] 2 2 (4/1000000) 5 1 1);
    [lra | lia | lia].
Defined.

Lemma calc_traj_weight_bound_witness :
  let w := nth (traj_index 2 1 1)
               (weights (calc_traj [0; 3] [-1; 4] 2 2 (4/1000000) 5)) 0 in
  let xg := aref [0; 3] 1 in
  let yg := aref [-1; 4] 1 in
  w <= sqrt (xg * xg + yg * yg) /\ (xg = 0 -> yg = 0 -> w = 0).
Proof.
  apply (@calc_traj_weight_bound [0; 3] [-1; 4] 2 2 (4/1000000) 5 1 1); lia.
Defined.

Lemma calc_traj_buffer_sizes_witness :
  let r := calc_traj [0; 3] [-1; 4] 2 2 (4/1000000) 5 in
  Z.of_nat (length (x_trajectory r)) = (2 * 2)%Z /\
  Z.of_nat (length (y_trajectory r)) = (2 * 2)%Z /\
  Z.of_nat (length (weights r)) = (2 * 2)%Z.
Proof.
  apply (@calc_traj_buffer_sizes R R_double [0; 3] [-1; 4] 2 2 (4/1000000) 5);
    lia.
Defined.
